(** * react-email-input: the email chip controller of [EmailInputs.tsx]

    A shallow embedding of the [EmailChips] component
    (src/components/EmailInputs.tsx): its chip list, its three flags, the
    text input it owns through [inputRef], and its handlers [updateChips],
    [deleteChip] and [handleKeyDown], followed by the properties the
    specification states about them. *)

From Stdlib Require Import List String Ascii Bool ZArith NArith Lia.
Import ListNotations.
Local Open Scope string_scope.
Local Open Scope list_scope.

(** ** The JavaScript string built-ins the component calls

    A [string] is read as a sequence of UTF-16 code units in the range
    U+0000..U+00FF, one [ascii] per code unit.  On that range
    [String.prototype.trim] and [String.prototype.toLowerCase] are the
    functions below. *)
Module JS.

(** WhiteSpace and LineTerminator code points below U+0100: TAB, LF, VT, FF,
    CR, SP and NBSP. *)
Definition isWhiteSpace (c : ascii) : bool :=
  let n := N_of_ascii c in
  ((9 <=? n) && (n <=? 13) || (n =? 32) || (n =? 160))%N.

Fixpoint trimStart (s : string) : string :=
  match s with
  | EmptyString => EmptyString
  | String c s' => if isWhiteSpace c then trimStart s' else s
  end.

Fixpoint trimEnd (s : string) : string :=
  match s with
  | EmptyString => EmptyString
  | String c s' =>
      match trimEnd s' with
      | EmptyString => if isWhiteSpace c then EmptyString else String c EmptyString
      | t => String c t
      end
  end.

Definition trim (s : string) : string := trimEnd (trimStart s).

(** Upper-case letters below U+0100: A-Z, and U+00C0..U+00DE without the
    multiplication sign U+00D7.  Each has its lower-case form 32 above. *)
Definition lowerChar (c : ascii) : ascii :=
  let n := N_of_ascii c in
  if ((65 <=? n) && (n <=? 90) || (192 <=? n) && (n <=? 214)
      || (216 <=? n) && (n <=? 222))%N
  then ascii_of_N (n + 32) else c.

Fixpoint toLowerCase (s : string) : string :=
  match s with
  | EmptyString => EmptyString
  | String c s' => String (lowerChar c) (toLowerCase s')
  end.

(** Truthiness of a string: only the empty string is falsy. *)
Definition truthy (s : string) : bool :=
  match s with EmptyString => false | String _ _ => true end.

(** A string that does not begin with white space. *)
Definition cleanStart (s : string) : bool :=
  match s with
  | EmptyString => true
  | String c _ => negb (isWhiteSpace c)
  end.

End JS.

(** ** Data model *)

(** [type EmailData = { email: string; valid: boolean }] *)
Record EmailData : Type := mkEmailData {
  data_email : string;
  data_valid : bool
}.

(** [type EmailChip = { key: number } & EmailData] *)
Record EmailChip : Type := mkEmailChip {
  key : Z;
  email : string;
  valid : bool
}.

(** [EmailInputProps], restricted to the props the controller logic reads.
    [required] is [true] only for the literal [true]; [onChipChange] records
    whether the callback was supplied. *)
Record EmailInputProps : Type := mkProps {
  limit : option Z;
  initialEmails : option (list string);
  validateEmail : option (string -> bool);
  onChipChange : bool;
  required : bool
}.

(** The component's hooks: the three [useState] cells next to [chips], and
    the DOM input behind [inputRef] ([None] while the input is not rendered,
    otherwise its current [value]). *)
Record State : Type := mkState {
  chips : list EmailChip;
  disableInput : bool;
  requiredValidation : bool;
  limitValidation : bool;
  inputRef : option string
}.

(** The calls made to [onChipChange] by one handler, oldest first. *)
Definition Calls : Type := list (list EmailData).

Definition setChips (cs : list EmailChip) (s : State) : State :=
  mkState cs (disableInput s) (requiredValidation s) (limitValidation s) (inputRef s).

Definition setDisableInput (b : bool) (s : State) : State :=
  mkState (chips s) b (requiredValidation s) (limitValidation s) (inputRef s).

Definition setRequiredValidation (b : bool) (s : State) : State :=
  mkState (chips s) (disableInput s) b (limitValidation s) (inputRef s).

Definition setLimitValidation (b : bool) (s : State) : State :=
  mkState (chips s) (disableInput s) (requiredValidation s) b (inputRef s).

Definition setInputRef (r : option string) (s : State) : State :=
  mkState (chips s) (disableInput s) (requiredValidation s) (limitValidation s) r.

(** ** Operations *)

(** [emailChipsToEmailData] *)
Definition emailChipsToEmailData (cs : list EmailChip) : list EmailData :=
  map (fun chip => mkEmailData (email chip) (valid chip)) cs.

(** [onChipChange?.(payload)] *)
Definition callOnChipChange (p : EmailInputProps) (payload : list EmailData) : Calls :=
  if onChipChange p then [payload] else [].

(** [xs.map((x, i) => f(x, i))], counting from [i]. *)
Fixpoint mapi_from {A B : Type} (f : A -> Z -> B) (i : Z) (xs : list A) : list B :=
  match xs with
  | [] => []
  | x :: xs' => f x i :: mapi_from f (i + 1)%Z xs'
  end.

(** The [useState] initializer of [chips]. *)
Definition initialChips (p : EmailInputProps) (now : Z) : list EmailChip :=
  match initialEmails p with
  | Some emails => mapi_from (fun e i => mkEmailChip (now - i) e true) 0%Z emails
  | None => []
  end.

(** [!!limit && limit <= chips.length] *)
Definition limitReached (p : EmailInputProps) (count : nat) : bool :=
  match limit p with
  | Some l => negb (l =? 0)%Z && (l <=? Z.of_nat count)%Z
  | None => false
  end.

(** The body of the [useEffect] on [[chips.length, limit]]. *)
Definition limitEffect (p : EmailInputProps) (s : State) : State :=
  let disable := limitReached p (List.length (chips s)) in
  setLimitValidation disable (setDisableInput disable s).

(** Rendering: [{!disableInput && <input ref={inputRef} />}].  The ref is
    [null] while the input is not rendered; a newly mounted input is empty. *)
Definition render (s : State) : State :=
  if disableInput s then setInputRef None s
  else match inputRef s with
       | Some _ => s
       | None => setInputRef (Some "") s
       end.

(** [isOnlyOneValidChip] *)
Definition isOnlyOneValidChip (s : State) : bool :=
  (List.length (filter valid (chips s)) <=? 1)%nat.

(** [deleteChip] *)
Definition deleteChip (p : EmailInputProps) (removedChip : option EmailChip)
    (s : State) : State * Calls :=
  match removedChip with
  | None => (s, [])
  | Some removed =>
      if required p && valid removed && isOnlyOneValidChip s then
        (setRequiredValidation true s, [])
      else
        let updatedChips :=
          filter (fun chip => negb (key chip =? key removed)%Z) (chips s) in
        (setChips updatedChips s,
         callOnChipChange p (emailChipsToEmailData updatedChips))
  end.

(** [updateChips]; [now] is the value [Date.now()] returns. *)
Definition updateChips (p : EmailInputProps) (now : Z) (s : State) : State * Calls :=
  match inputRef s with
  | None => (s, [])
  | Some raw =>
      let value := JS.toLowerCase (JS.trim raw) in
      if negb (JS.truthy value) then (s, [])
      else
        let chipExists := existsb (fun chip => email chip =? value) (chips s) in
        if chipExists then (setInputRef (Some "") s, [])
        else
          let valid0 :=
            match validateEmail p with
            | Some validate => validate value
            | None => true
            end in
          let newChip := mkEmailChip now value valid0 in
          let updatedChips := chips s ++ [newChip] in
          let s1 :=
            if required p && negb valid0 then
              let validChips := filter valid (chips s) in
              if (List.length validChips =? 0)%nat
              then setRequiredValidation true s
              else s
            else setRequiredValidation false s in
          let s2 := setChips updatedChips s1 in
          (setInputRef (Some "") s2,
           callOnChipChange p (emailChipsToEmailData updatedChips))
  end.

(** [chips[chips.length - 1]] *)
Definition lastChip (s : State) : option EmailChip :=
  nth_error (chips s) (List.length (chips s) - 1).

(** [!inputRef.current?.value] *)
Definition inputEmpty (s : State) : bool :=
  match inputRef s with
  | Some v => negb (JS.truthy v)
  | None => true
  end.

(** [handleKeyDown]; [keyPressed] is [event.key]. *)
Definition handleKeyDown (p : EmailInputProps) (keyPressed : string) (now : Z)
    (s : State) : State * Calls :=
  if keyPressed =? "Enter" then updateChips p now s
  else if keyPressed =? "Backspace" then
    if inputEmpty s && negb (List.length (chips s) =? 0)%nat
    then deleteChip p (lastChip s) s
    else (s, [])
  else (s, []).

(** ** The component as a transition system *)

(** After a handler React renders again; the limit effect runs when
    [chips.length] differs from the previous render's (its other dependency,
    [limit], never changes), and its [setState] calls cause one more render. *)
Definition settle (p : EmailInputProps) (prevLength : nat) (s : State) : State :=
  if (List.length (chips s) =? prevLength)%nat then render s
  else render (limitEffect p (render s)).

(** Mounting: the [useState] initial values, the first render, and the first
    run of the limit effect.  [now] is what [Date.now()] returns in the
    initializer of [chips]. *)
Definition mount (p : EmailInputProps) (now : Z) : State :=
  render (limitEffect p (render (mkState (initialChips p now) false false false None))).

(** What the user can do: edit the text of the input, press a key in it,
    move the focus away from it, or activate the delete button of the chip
    shown at position [i]. *)
Inductive Event : Type :=
| Change (text : string)
| KeyDown (keyPressed : string) (now : Z)
| Blur (now : Z)
| ChipClick (i : nat).

(** The handler bound to each event.  The events of the input only occur
    while the input is rendered, a delete button only exists for a chip that
    is shown. *)
Definition dispatch (p : EmailInputProps) (ev : Event) (s : State) : State * Calls :=
  match ev with
  | Change text =>
      match inputRef s with
      | Some _ => (setInputRef (Some text) s, [])
      | None => (s, [])
      end
  | KeyDown keyPressed now =>
      match inputRef s with
      | Some _ => handleKeyDown p keyPressed now s
      | None => (s, [])
      end
  | Blur now =>
      match inputRef s with
      | Some _ => updateChips p now s
      | None => (s, [])
      end
  | ChipClick i =>
      match nth_error (chips s) i with
      | Some chip => deleteChip p (Some chip) s
      | None => (s, [])
      end
  end.

Definition step (p : EmailInputProps) (ev : Event) (s : State) : State * Calls :=
  let '(s', calls) := dispatch p ev s in
  (settle p (List.length (chips s)) s', calls).

Fixpoint run (p : EmailInputProps) (evs : list Event) (s : State) : State * Calls :=
  match evs with
  | [] => (s, [])
  | ev :: evs' =>
      let '(s1, calls1) := step p ev s in
      let '(s2, calls2) := run p evs' s1 in
      (s2, calls1 ++ calls2)
  end.

(** CommitEntry(rawText): the text is in the input and Enter is pressed. *)
Definition commitEntry (raw : string) (now : Z) : list Event :=
  [Change raw; KeyDown "Enter" now].

Definition commitEntries (entries : list (string * Z)) : list Event :=
  flat_map (fun e => commitEntry (fst e) (snd e)) entries.

(** The states the widget can be in: after mounting and any events. *)
Inductive reachable (p : EmailInputProps) : State -> Prop :=
| reachable_mount : forall now, reachable p (mount p now)
| reachable_step : forall s ev, reachable p s -> reachable p (fst (step p ev s)).

(** [value.trim().toLowerCase()] *)
Definition normalize (raw : string) : string := JS.toLowerCase (JS.trim raw).

(** ** Notions used in the statements *)

(** Line 107: the validity given to a committed value. *)
Definition validity (p : EmailInputProps) (value : string) : bool :=
  match validateEmail p with
  | Some validate => validate value
  | None => true
  end.

(** Lines 110-117: the required flag after a chip of validity [valid0] is
    added to the chips of [s]. *)
Definition requiredAfterAdd (p : EmailInputProps) (valid0 : bool) (s : State) : bool :=
  if required p && negb valid0 then
    if (List.length (filter valid (chips s)) =? 0)%nat
    then true else requiredValidation s
  else false.

(** [initialEmails ?? []] *)
Definition seeds (p : EmailInputProps) : list string :=
  match initialEmails p with
  | Some emails => emails
  | None => []
  end.

(** The props [p] with [limit] replaced by [l]. *)
Definition withLimit (l : option Z) (p : EmailInputProps) : EmailInputProps :=
  {| limit := l; initialEmails := initialEmails p; validateEmail := validateEmail p;
     onChipChange := onChipChange p; required := required p |}.

(** A state between two events: the flags of the limit agree with the chip
    count, and the input is rendered exactly when it is not disabled. *)
Record settled (p : EmailInputProps) (s : State) : Prop := mkSettled {
  settled_disable : disableInput s = limitReached p (List.length (chips s));
  settled_message : limitValidation s = disableInput s;
  settled_input : inputRef s = None <-> disableInput s = true
}.

(** A handler either leaves the chips alone and stays silent, or passes the
    public form of the chips it has just set to [onChipChange]. *)
Definition silent_or_reported (p : EmailInputProps) (s : State) (r : State * Calls) : Prop :=
  (chips (fst r) = chips s /\ snd r = []) \/
  snd r = callOnChipChange p (emailChipsToEmailData (chips (fst r))).

(** The emails of the chips are pairwise different, and each is its own
    normalized form. *)
Definition emailsDistinctNormalized (cs : list EmailChip) : Prop :=
  NoDup (map email cs) /\ Forall (fun c => normalize (email c) = email c) cs.

(** ** Configurations to evaluate the component on *)

(** A validator that accepts the strings with an at sign. *)
Definition hasAtSign (s : string) : bool :=
  existsb (Ascii.eqb "@") (list_ascii_of_string s).

(** The props of [App.tsx], with a limit of 2. *)
Definition sampleProps : EmailInputProps :=
  {| limit := Some 2%Z; initialEmails := None; validateEmail := Some hasAtSign;
     onChipChange := true; required := true |}.

(** The same without a limit. *)
Definition sampleUnlimited : EmailInputProps :=
  {| limit := None; initialEmails := None; validateEmail := Some hasAtSign;
     onChipChange := true; required := true |}.

(** One valid chip, an empty input, no flag raised. *)
Definition oneValidChip : State :=
  {| chips := [mkEmailChip 10 "a@x.com" true]; disableInput := false;
     requiredValidation := false; limitValidation := false; inputRef := Some "" |}.

(** Seeded with the empty email. *)
Definition seededEmpty : EmailInputProps :=
  {| limit := None; initialEmails := Some [""]; validateEmail := None;
     onChipChange := true; required := false |}.

(** Seeded with the same email twice. *)
Definition seededTwice : EmailInputProps :=
  {| limit := None; initialEmails := Some ["a@x.com"; "a@x.com"];
     validateEmail := None; onChipChange := true; required := false |}.

(** With [sampleUnlimited]: "a@x.com" is committed, its deletion is tried
    (and refused), and "bad" is typed. *)
Definition afterRefusedDelete : State :=
  fst (run sampleUnlimited
         (commitEntry "a@x.com" 10 ++ [ChipClick 0; Change "bad"])
         (mount sampleUnlimited 5)).

(** With [sampleUnlimited]: two commits in the same millisecond. *)
Definition sameMillisecond : State :=
  fst (run sampleUnlimited
         (commitEntry "a@x.com" 10 ++ commitEntry "b@x.com" 10)
         (mount sampleUnlimited 5)).

(** With [seededEmpty]: one space is typed. *)
Definition spaceTyped : State :=
  fst (run seededEmpty [Change " "] (mount seededEmpty 5)).

(** Seeded with more emails than the limit. *)
Definition seededOverLimit : EmailInputProps :=
  {| limit := Some 2%Z; initialEmails := Some ["a@x.com"; "b@x.com"; "c@x.com"];
     validateEmail := None; onChipChange := true; required := false |}.

(** ** What the component renders *)

(** The props that only the markup reads. *)
Record DisplayProps : Type := mkDisplayProps {
  limitMessage : option string;
  requiredMessage : option string;
  placeholder : option string;
  inputId : option string
}.

(** [classNames(a, b)] on two non-empty strings. *)
Definition classNames (a b : string) : string := (a ++ " " ++ b)%string.

(** The [span] of one chip in [EmailChipsList]: its React key, its class and
    the email it shows; its button passes [span_chip] to [onChipClick]. *)
Record ChipSpan : Type := mkChipSpan {
  span_key : Z;
  span_className : string;
  span_text : string;
  span_chip : EmailChip
}.

(** [EmailChipsList] *)
Definition EmailChipsList (cs : list EmailChip) : list ChipSpan :=
  map (fun chip =>
         mkChipSpan (key chip)
           (classNames
              "inline-flex items-center rounded-full border border-gray-200 px-2 py-1 text-sm font-medium text-gray-800"
              (if valid chip then "border-gray-200 bg-gray-100"
               else "border-red-200 bg-red-100"))
           (email chip) chip) cs.

(** The [input] element, when rendered. *)
Record InputElement : Type := mkInputElement {
  input_id : option string;
  input_placeholder : option string
}.

(** What [EmailChips] returns: the chip spans, the input under
    [!disableInput && ...], and the two message spans under
    [!!limit && limitValidation && ...] and
    [required && requiredValidation && ...], each with its text. *)
Record View : Type := mkView {
  view_chips : list ChipSpan;
  view_input : option InputElement;
  view_limitMessage : option (option string);
  view_requiredMessage : option (option string)
}.

Definition view (p : EmailInputProps) (d : DisplayProps) (s : State) : View :=
  {| view_chips := EmailChipsList (chips s);
     view_input :=
       if negb (disableInput s)
       then Some (mkInputElement (inputId d) (placeholder d)) else None;
     view_limitMessage :=
       if match limit p with Some l => negb (l =? 0)%Z | None => false end
          && limitValidation s
       then Some (limitMessage d) else None;
     view_requiredMessage :=
       if required p && requiredValidation s
       then Some (requiredMessage d) else None |}.

(** ** The clock *)

(** The reading of [Date.now()] that an event comes with. *)
Definition eventClock (ev : Event) : option Z :=
  match ev with
  | KeyDown _ now => Some now
  | Blur now => Some now
  | Change _ => None
  | ChipClick _ => None
  end.

(** The states reached when the clock moves on between any two readings:
    [ticking p t s] has [t] as the latest reading. *)
Inductive ticking (p : EmailInputProps) : Z -> State -> Prop :=
| ticking_mount : forall now, ticking p now (mount p now)
| ticking_quiet : forall t s ev,
    ticking p t s -> eventClock ev = None -> ticking p t (fst (step p ev s))
| ticking_clock : forall t s ev now,
    ticking p t s -> eventClock ev = Some now -> (t < now)%Z ->
    ticking p now (fst (step p ev s)).

(** ** What a handler can have done *)

(** The four things an event makes its handler do to the chips and the
    required flag: nothing, refuse a deletion, delete by key, or add a chip. *)
Inductive handled (p : EmailInputProps) (s : State) (ev : Event) : State -> Prop :=
| handled_idle : forall s',
    chips s' = chips s -> requiredValidation s' = requiredValidation s ->
    handled p s ev s'
| handled_refused : forall c,
    In c (chips s) -> required p = true -> valid c = true ->
    isOnlyOneValidChip s = true ->
    handled p s ev (setRequiredValidation true s)
| handled_deleted : forall c,
    In c (chips s) -> required p && valid c && isOnlyOneValidChip s = false ->
    handled p s ev
      (setChips (filter (fun chip => negb (key chip =? key c)%Z) (chips s)) s)
| handled_added : forall raw now,
    eventClock ev = Some now -> inputRef s = Some raw ->
    normalize raw <> "" -> ~ In (normalize raw) (map email (chips s)) ->
    handled p s ev
      (mkState
         (chips s ++ [mkEmailChip now (normalize raw) (validity p (normalize raw))])
         (disableInput s)
         (requiredAfterAdd p (validity p (normalize raw)) s)
         (limitValidation s) (Some "")).

(** There is room for [n] chips: no limit, a limit of zero, or a limit of
    at least [n]. *)
Definition roomFor (p : EmailInputProps) (n : nat) : Prop :=
  match limit p with
  | Some l => l = 0%Z \/ (Z.of_nat n <= l)%Z
  | None => True
  end.

(** The chip that committing [raw] at time [now] makes. *)
Definition chipOf (p : EmailInputProps) (raw : string) (now : Z) : EmailChip :=
  mkEmailChip now (normalize raw) (validity p (normalize raw)).

(** ** More configurations *)

Definition sampleDisplay : DisplayProps :=
  {| limitMessage := Some "You've reached the email limit";
     requiredMessage := Some "Email is required";
     placeholder := None; inputId := None |}.

(** The props of [sampleProps] without [required]. *)
Definition sampleOptional : EmailInputProps :=
  {| limit := Some 2%Z; initialEmails := None; validateEmail := Some hasAtSign;
     onChipChange := true; required := false |}.

(** One valid chip and "b@x.com" typed. *)
Definition secondTyped : State := setInputRef (Some "b@x.com") oneValidChip.

(** ** Facts about the string built-ins *)
Module JSFacts.
Import JS.

Ltac each_char c :=
  destruct c as [[] [] [] [] [] [] [] []]; vm_compute; reflexivity.

Lemma lowerChar_idem (c : ascii) : lowerChar (lowerChar c) = lowerChar c.
Proof. each_char c. Qed.

Lemma isWhiteSpace_lowerChar (c : ascii) :
  isWhiteSpace (lowerChar c) = isWhiteSpace c.
Proof. each_char c. Qed.

Lemma toLowerCase_idem (s : string) : toLowerCase (toLowerCase s) = toLowerCase s.
Proof.
  induction s as [|c s IH]; simpl; [reflexivity|].
  now rewrite lowerChar_idem, IH.
Qed.

Lemma toLowerCase_empty (s : string) :
  toLowerCase s = EmptyString <-> s = EmptyString.
Proof. destruct s; simpl; split; intro H; try reflexivity; discriminate H. Qed.

Lemma trimStart_toLowerCase (s : string) :
  trimStart (toLowerCase s) = toLowerCase (trimStart s).
Proof.
  induction s as [|c s IH]; simpl; [reflexivity|].
  rewrite isWhiteSpace_lowerChar.
  destruct (isWhiteSpace c); [exact IH | reflexivity].
Qed.

Lemma trimEnd_toLowerCase (s : string) :
  trimEnd (toLowerCase s) = toLowerCase (trimEnd s).
Proof.
  induction s as [|c s IH]; simpl; [reflexivity|].
  rewrite IH, isWhiteSpace_lowerChar.
  destruct (trimEnd s); simpl; [destruct (isWhiteSpace c)|]; reflexivity.
Qed.

Lemma trim_toLowerCase (s : string) : trim (toLowerCase s) = toLowerCase (trim s).
Proof. unfold trim. now rewrite trimStart_toLowerCase, trimEnd_toLowerCase. Qed.

Lemma cleanStart_trimStart (s : string) : cleanStart (trimStart s) = true.
Proof.
  induction s as [|c s IH]; simpl; [reflexivity|].
  destruct (isWhiteSpace c) eqn:E; [exact IH | simpl; now rewrite E].
Qed.

Lemma trimStart_clean (s : string) : cleanStart s = true -> trimStart s = s.
Proof.
  destruct s as [|c s]; simpl; [reflexivity|].
  now destruct (isWhiteSpace c).
Qed.

Lemma cleanStart_trimEnd (s : string) :
  cleanStart s = true -> cleanStart (trimEnd s) = true.
Proof.
  destruct s as [|c s]; simpl; [reflexivity|].
  intro H. destruct (trimEnd s); simpl; [|exact H].
  destruct (isWhiteSpace c) eqn:W; [reflexivity | simpl; now rewrite W].
Qed.

Lemma trimEnd_idem (s : string) : trimEnd (trimEnd s) = trimEnd s.
Proof.
  induction s as [|c s IH]; simpl; [reflexivity|].
  destruct (trimEnd s) as [|d t] eqn:E.
  - destruct (isWhiteSpace c) eqn:W; simpl; [reflexivity | now rewrite W].
  - change (trimEnd (String c (String d t))) with
      (match trimEnd (String d t) with
       | EmptyString => if isWhiteSpace c then EmptyString else String c EmptyString
       | u => String c u
       end).
    now rewrite IH.
Qed.

Lemma trim_idem (s : string) : trim (trim s) = trim s.
Proof.
  unfold trim.
  rewrite (trimStart_clean (trimEnd (trimStart s))).
  - apply trimEnd_idem.
  - apply cleanStart_trimEnd, cleanStart_trimStart.
Qed.

Example trim_strips_both_ends : trim "  A@x.COM  " = "A@x.COM".
Proof. reflexivity. Qed.

Example trim_keeps_inner_space : trim " a b " = "a b".
Proof. reflexivity. Qed.

Example trim_of_blank : trim "   " = "".
Proof. reflexivity. Qed.

Example toLowerCase_letters_only : toLowerCase "A@x.COM[1]" = "a@x.com[1]".
Proof. reflexivity. Qed.

End JSFacts.

Lemma normalize_idem (raw : string) : normalize (normalize raw) = normalize raw.
Proof.
  unfold normalize.
  now rewrite JSFacts.trim_toLowerCase, JSFacts.trim_idem, JSFacts.toLowerCase_idem.
Qed.

Lemma normalize_trim_empty (raw : string) :
  JS.trim raw = EmptyString -> normalize raw = EmptyString.
Proof. unfold normalize. intros ->. reflexivity. Qed.

(** ** Rendering and the limit effect *)

Lemma chips_render (s : State) : chips (render s) = chips s.
Proof. unfold render. destruct (disableInput s), (inputRef s); reflexivity. Qed.

Lemma chips_limitEffect (p : EmailInputProps) (s : State) :
  chips (limitEffect p s) = chips s.
Proof. reflexivity. Qed.

Lemma chips_settle (p : EmailInputProps) (n : nat) (s : State) :
  chips (settle p n s) = chips s.
Proof.
  unfold settle.
  destruct (_ =? _)%nat; now rewrite ?chips_render, ?chips_limitEffect, ?chips_render.
Qed.

Lemma requiredValidation_render (s : State) :
  requiredValidation (render s) = requiredValidation s.
Proof. unfold render. destruct (disableInput s), (inputRef s); reflexivity. Qed.

Lemma requiredValidation_settle (p : EmailInputProps) (n : nat) (s : State) :
  requiredValidation (settle p n s) = requiredValidation s.
Proof.
  unfold settle. destruct (_ =? _)%nat; rewrite requiredValidation_render;
    [reflexivity|]. simpl. apply requiredValidation_render.
Qed.

Lemma disableInput_render (s : State) : disableInput (render s) = disableInput s.
Proof. unfold render. destruct (disableInput s) eqn:E, (inputRef s); simpl; congruence. Qed.

Lemma limitValidation_render (s : State) : limitValidation (render s) = limitValidation s.
Proof. unfold render. destruct (disableInput s), (inputRef s); reflexivity. Qed.

Lemma inputRef_render (s : State) :
  inputRef (render s) =
  if disableInput s then None
  else match inputRef s with Some v => Some v | None => Some "" end.
Proof.
  unfold render. destruct (disableInput s); [reflexivity|].
  destruct (inputRef s) eqn:I; [exact I | reflexivity].
Qed.

Lemma settled_render_effect (p : EmailInputProps) (s : State) :
  settled p (render (limitEffect p s)).
Proof.
  split.
  - rewrite disableInput_render, chips_render. reflexivity.
  - rewrite disableInput_render, limitValidation_render. reflexivity.
  - rewrite inputRef_render, disableInput_render.
    destruct (disableInput (limitEffect p s)); [tauto|].
    destruct (inputRef (limitEffect p s)); split; discriminate.
Qed.

Lemma render_settled (p : EmailInputProps) (s : State) : settled p s -> render s = s.
Proof.
  intros [_ _ Hin]. unfold render.
  destruct (disableInput s) eqn:E.
  - destruct Hin as [_ Hin]. specialize (Hin eq_refl).
    destruct s as [cs d r l i]; simpl in *. subst i. reflexivity.
  - destruct (inputRef s) eqn:I; [reflexivity|].
    destruct Hin as [Hin _]. specialize (Hin eq_refl). discriminate Hin.
Qed.

Lemma settled_mount (p : EmailInputProps) (now : Z) : settled p (mount p now).
Proof. apply settled_render_effect. Qed.

(** No handler writes [disableInput] or [limitValidation], and none mounts or
    unmounts the input. *)
Lemma dispatch_frame (p : EmailInputProps) (ev : Event) (s : State) :
  let s' := fst (dispatch p ev s) in
  disableInput s' = disableInput s /\
  limitValidation s' = limitValidation s /\
  (inputRef s' = None <-> inputRef s = None).
Proof.
  destruct s as [cs d r l i].
  destruct ev as [text|k now|now|n]; simpl;
    unfold handleKeyDown, updateChips, deleteChip, lastChip; simpl.
  - destruct i; simpl; repeat split; auto; discriminate.
  - destruct i as [v|]; simpl; [|tauto].
    repeat match goal with
           | |- context [if ?b then _ else _] => destruct b; simpl
           | |- context [match nth_error ?a ?b with _ => _ end] =>
               destruct (nth_error a b); simpl
           end; repeat split; auto; discriminate.
  - destruct i as [v|]; simpl; [|tauto].
    repeat match goal with
           | |- context [if ?b then _ else _] => destruct b; simpl
           end; repeat split; auto; discriminate.
  - destruct (nth_error cs n); simpl; [|tauto].
    repeat match goal with
           | |- context [if ?b then _ else _] => destruct b; simpl
           end; tauto.
Qed.

Lemma settled_step (p : EmailInputProps) (ev : Event) (s : State) :
  settled p s -> settled p (fst (step p ev s)).
Proof.
  intros Hs. unfold step.
  pose proof (dispatch_frame p ev s) as Hf.
  destruct (dispatch p ev s) as [s' calls]; simpl in *.
  destruct Hf as (Hd & Hl & Hi).
  unfold settle. destruct (_ =? _)%nat eqn:E.
  - apply Nat.eqb_eq in E.
    assert (Hs' : settled p s').
    { destruct Hs as [H1 H2 H3]. split.
      + now rewrite Hd, E.
      + now rewrite Hl, Hd.
      + now rewrite Hi, Hd. }
    now rewrite (render_settled p s' Hs').
  - apply settled_render_effect.
Qed.

Lemma reachable_settled (p : EmailInputProps) (s : State) :
  reachable p s -> settled p s.
Proof.
  induction 1 as [now|s ev _ IH]; [apply settled_mount | now apply settled_step].
Qed.

Lemma reachable_run (p : EmailInputProps) (evs : list Event) (s : State) :
  reachable p s -> reachable p (fst (run p evs s)).
Proof.
  revert s. induction evs as [|ev evs IH]; intros s Hs; simpl; [exact Hs|].
  destruct (step p ev s) as [s1 c1] eqn:E1.
  specialize (IH s1). destruct (run p evs s1) as [s2 c2]; simpl in *.
  apply IH. change s1 with (fst (s1, c1)). rewrite <- E1. now constructor.
Qed.

(** ** The cases of [updateChips] *)

Lemma chipExists_In (value : string) (cs : list EmailChip) :
  existsb (fun chip => email chip =? value)%string cs = true <->
  In value (map email cs).
Proof.
  rewrite existsb_exists, in_map_iff.
  split; intros (c & H1 & H2); exists c.
  - apply String.eqb_eq in H2. tauto.
  - split; [exact H2 | now apply String.eqb_eq].
Qed.

Lemma chipExists_not_In (value : string) (cs : list EmailChip) :
  existsb (fun chip => email chip =? value)%string cs = false <->
  ~ In value (map email cs).
Proof.
  rewrite <- chipExists_In. destruct (existsb _ cs); split; intro H;
    try reflexivity; try discriminate; try congruence.
Qed.

Lemma updateChips_unmounted (p : EmailInputProps) (now : Z) (s : State) :
  inputRef s = None -> updateChips p now s = (s, []).
Proof. unfold updateChips. now intros ->. Qed.

Lemma updateChips_empty (p : EmailInputProps) (now : Z) (s : State) (raw : string) :
  inputRef s = Some raw -> normalize raw = "" -> updateChips p now s = (s, []).
Proof.
  unfold updateChips, normalize. intros -> ->. reflexivity.
Qed.

Lemma updateChips_duplicate (p : EmailInputProps) (now : Z) (s : State) (raw : string) :
  inputRef s = Some raw -> normalize raw <> "" ->
  In (normalize raw) (map email (chips s)) ->
  updateChips p now s = (setInputRef (Some "") s, []).
Proof.
  unfold updateChips, normalize. intros -> Hne Hdup.
  destruct (JS.toLowerCase (JS.trim raw)) as [|c v] eqn:E; [now elim Hne|].
  cbn [JS.truthy negb].
  apply chipExists_In in Hdup. now rewrite Hdup.
Qed.

Lemma updateChips_append (p : EmailInputProps) (now : Z) (s : State) (raw : string) :
  inputRef s = Some raw -> normalize raw <> "" ->
  ~ In (normalize raw) (map email (chips s)) ->
  let value := normalize raw in
  let valid0 := validity p value in
  let updatedChips := chips s ++ [mkEmailChip now value valid0] in
  updateChips p now s =
  (mkState updatedChips (disableInput s) (requiredAfterAdd p valid0 s)
           (limitValidation s) (Some ""),
   callOnChipChange p (emailChipsToEmailData updatedChips)).
Proof.
  unfold updateChips, normalize, validity, requiredAfterAdd.
  intros -> Hne Hnew.
  destruct (JS.toLowerCase (JS.trim raw)) as [|c v] eqn:E; [now elim Hne|].
  cbn [JS.truthy negb].
  apply chipExists_not_In in Hnew. rewrite Hnew. cbv zeta.
  destruct (required p && negb _); [|reflexivity].
  destruct (_ =? 0)%nat; reflexivity.
Qed.

(** The three outcomes are all there are. *)
Lemma updateChips_cases (p : EmailInputProps) (now : Z) (s : State) :
  updateChips p now s = (s, []) \/
  updateChips p now s = (setInputRef (Some "") s, []) \/
  exists raw,
    inputRef s = Some raw /\ normalize raw <> "" /\
    ~ In (normalize raw) (map email (chips s)) /\
    chips (fst (updateChips p now s)) =
    chips s ++ [mkEmailChip now (normalize raw) (validity p (normalize raw))].
Proof.
  destruct (inputRef s) as [raw|] eqn:I;
    [|left; now apply updateChips_unmounted].
  destruct (string_dec (normalize raw) "") as [E|E];
    [left; now apply updateChips_empty with raw|].
  destruct (in_dec string_dec (normalize raw) (map email (chips s))) as [D|D];
    [right; left; now apply updateChips_duplicate with raw|].
  right; right. exists raw. repeat split; auto.
  now rewrite (updateChips_append p now s raw I E D).
Qed.

(** ** The cases of [deleteChip] *)

Lemma deleteChip_refused (p : EmailInputProps) (s : State) (c : EmailChip) :
  required p = true -> valid c = true ->
  (List.length (filter valid (chips s)) <= 1)%nat ->
  deleteChip p (Some c) s = (setRequiredValidation true s, []).
Proof.
  intros Hr Hv Hone. unfold deleteChip, isOnlyOneValidChip.
  rewrite Hr, Hv. apply Nat.leb_le in Hone. now rewrite Hone.
Qed.

Lemma deleteChip_permitted (p : EmailInputProps) (s : State) (c : EmailChip) :
  required p && valid c && isOnlyOneValidChip s = false ->
  let updatedChips := filter (fun chip => negb (key chip =? key c)%Z) (chips s) in
  deleteChip p (Some c) s =
  (setChips updatedChips s, callOnChipChange p (emailChipsToEmailData updatedChips)).
Proof. intros H. unfold deleteChip. now rewrite H. Qed.

Lemma lastChip_snoc (s : State) (cs : list EmailChip) (c : EmailChip) :
  chips s = cs ++ [c] -> lastChip s = Some c.
Proof.
  intros H. unfold lastChip. rewrite H, length_app. simpl.
  replace (List.length cs + 1 - 1)%nat with (List.length cs) by lia.
  rewrite nth_error_app2 by lia. now rewrite Nat.sub_diag.
Qed.

(** ** Deletion *)

(** C1.  When [required] is active and the chip to delete is the only valid
    chip of the collection, [deleteChip] refuses: the chips stay as they are,
    [onChipChange] is not called, and the required flag is set.  The same
    holds for the whole event of activating that chip's delete button. *)
Theorem deleteChip_refuses_only_valid_chip
    (p : EmailInputProps) (s : State) (c : EmailChip) (i : nat)
    (Hreq : required p = true)
    (Hi : nth_error (chips s) i = Some c)
    (Honly : filter valid (chips s) = [c]) :
  deleteChip p (Some c) s = (setRequiredValidation true s, []) /\
  chips (fst (deleteChip p (Some c) s)) = chips s /\
  snd (deleteChip p (Some c) s) = [] /\
  requiredValidation (fst (deleteChip p (Some c) s)) = true /\
  chips (fst (step p (ChipClick i) s)) = chips s /\
  snd (step p (ChipClick i) s) = [] /\
  requiredValidation (fst (step p (ChipClick i) s)) = true.
Proof.
  assert (Hv : valid c = true).
  { assert (Hc : In c (filter valid (chips s))) by (rewrite Honly; now left).
    now apply filter_In in Hc. }
  assert (Hd : deleteChip p (Some c) s = (setRequiredValidation true s, [])).
  { apply deleteChip_refused; auto. rewrite Honly. simpl. lia. }
  unfold step, dispatch. rewrite Hi, Hd. cbn [fst snd].
  rewrite chips_settle, requiredValidation_settle. simpl. tauto.
Qed.

Lemma deleteChip_refuses_only_valid_chip_witness :
  chips (fst (step sampleProps (ChipClick 0) oneValidChip)) = chips oneValidChip /\
  requiredValidation (fst (step sampleProps (ChipClick 0) oneValidChip)) = true.
Proof.
  pose proof (deleteChip_refuses_only_valid_chip sampleProps oneValidChip
                (mkEmailChip 10 "a@x.com" true) 0 eq_refl eq_refl eq_refl) as H.
  split; apply H.
Defined.

(** C8.  With an empty input and at least one chip, the Backspace key runs
    [deleteChip] on the last chip of the list, so the event is the one of
    activating the last chip's delete button: refused, with the required flag
    set, when [required] is active and that chip is the only valid one, and
    otherwise a removal by key. *)
Theorem backspace_deletes_last_chip
    (p : EmailInputProps) (now : Z) (s : State) (cs : list EmailChip) (c : EmailChip)
    (Hbuf : inputRef s = Some "")
    (Hchips : chips s = cs ++ [c]) :
  handleKeyDown p "Backspace" now s = deleteChip p (Some c) s /\
  step p (KeyDown "Backspace" now) s = step p (ChipClick (List.length cs)) s /\
  (required p = true -> filter valid (chips s) = [c] ->
   handleKeyDown p "Backspace" now s = (setRequiredValidation true s, [])) /\
  (required p && valid c && isOnlyOneValidChip s = false ->
   chips (fst (handleKeyDown p "Backspace" now s)) =
   filter (fun chip => negb (key chip =? key c)%Z) (chips s)).
Proof.
  assert (Hk : handleKeyDown p "Backspace" now s = deleteChip p (Some c) s).
  { unfold handleKeyDown, inputEmpty. rewrite Hbuf.
    rewrite (lastChip_snoc s cs c Hchips), Hchips, length_app. simpl.
    replace (List.length cs + 1 =? 0)%nat with false; [reflexivity|].
    symmetry. apply Nat.eqb_neq. lia. }
  repeat split.
  - exact Hk.
  - unfold step, dispatch. rewrite Hbuf, Hk.
    replace (nth_error (chips s) (List.length cs)) with (Some c); [reflexivity|].
    rewrite Hchips, nth_error_app2 by lia. now rewrite Nat.sub_diag.
  - intros Hreq Honly. rewrite Hk. apply deleteChip_refused; auto.
    + assert (Hc : In c (filter valid (chips s))) by (rewrite Honly; now left).
      now apply filter_In in Hc.
    + rewrite Honly. simpl. lia.
  - intros Hperm. rewrite Hk, (deleteChip_permitted p s c Hperm). reflexivity.
Qed.

Lemma backspace_deletes_last_chip_witness :
  handleKeyDown sampleProps "Backspace" 11 oneValidChip =
  (setRequiredValidation true oneValidChip, []).
Proof.
  apply (backspace_deletes_last_chip sampleProps 11 oneValidChip []
           (mkEmailChip 10 "a@x.com" true) eq_refl eq_refl); reflexivity.
Defined.

(** ** Committing an entry *)

(** C7.  [updateChips] works on the trimmed, lower-cased text of the input.
    That value is empty exactly when the text is empty after trimming, and
    then nothing changes.  A value that is not
    empty and not yet among the chips is appended as a chip whose validity is
    what the validator says of the normalized value, [true] without a
    validator, and the chip is appended just the same when that is [false]. *)
Theorem updateChips_normalizes_and_keeps_invalid
    (p : EmailInputProps) (now : Z) (s : State) (raw : string)
    (Hin : inputRef s = Some raw) :
  let value := JS.toLowerCase (JS.trim raw) in
  (value = "" <-> JS.trim raw = "") /\
  (JS.trim raw = "" -> updateChips p now s = (s, [])) /\
  (value <> "" -> ~ In value (map email (chips s)) ->
   (forall validate, validateEmail p = Some validate ->
      chips (fst (updateChips p now s)) =
      chips s ++ [mkEmailChip now value (validate value)]) /\
   (validateEmail p = None ->
      chips (fst (updateChips p now s)) = chips s ++ [mkEmailChip now value true]) /\
   (validity p value = false ->
      chips (fst (updateChips p now s)) = chips s ++ [mkEmailChip now value false])).
Proof.
  intros value. subst value.
  split; [apply JSFacts.toLowerCase_empty|].
  change (JS.toLowerCase (JS.trim raw)) with (normalize raw). split.
  - intros Ht. apply updateChips_empty with raw; auto.
    now apply normalize_trim_empty.
  - intros Hne Hnew.
    rewrite (updateChips_append p now s raw Hin Hne Hnew). cbn [fst chips].
    repeat split.
    + intros validate Hv. unfold validity. now rewrite Hv.
    + intros Hv. unfold validity. now rewrite Hv.
    + intros ->. reflexivity.
Qed.

Lemma updateChips_normalizes_and_keeps_invalid_witness :
  chips (fst (updateChips sampleProps 11 (setInputRef (Some "  BAD ") oneValidChip))) =
  [mkEmailChip 10 "a@x.com" true; mkEmailChip 11 "bad" false].
Proof.
  refine (proj2 (proj2 (proj2 (proj2 (updateChips_normalizes_and_keeps_invalid
            sampleProps 11 (setInputRef (Some "  BAD ") oneValidChip) "  BAD " eq_refl))
            _ _)) _).
  - discriminate.
  - simpl. intros [H|[]]. discriminate H.
  - reflexivity.
Defined.

(** C2, as the code has it.  When [updateChips] adds a chip, the required
    flag is cleared if the new chip is valid (or [required] is not active);
    it is set if [required] is active and no chip is valid after the
    addition; and it keeps its value if [required] is active, the new chip is
    invalid and some chip in the collection is valid. *)
Theorem updateChips_required_flag
    (p : EmailInputProps) (now : Z) (s : State) (raw : string)
    (Hin : inputRef s = Some raw)
    (Hne : normalize raw <> "")
    (Hnew : ~ In (normalize raw) (map email (chips s))) :
  let s' := fst (updateChips p now s) in
  (validity p (normalize raw) = true -> requiredValidation s' = false) /\
  (required p = false -> requiredValidation s' = false) /\
  (required p = true -> filter valid (chips s') = [] ->
   requiredValidation s' = true) /\
  (required p = true -> validity p (normalize raw) = false ->
   filter valid (chips s) <> [] ->
   requiredValidation s' = requiredValidation s).
Proof.
  intros s'. subst s'.
  rewrite (updateChips_append p now s raw Hin Hne Hnew).
  cbn [fst chips requiredValidation]. unfold requiredAfterAdd.
  repeat split.
  - intros ->. now rewrite andb_false_r.
  - intros ->. reflexivity.
  - intros -> Hnone. rewrite filter_app in Hnone.
    apply app_eq_nil in Hnone. destruct Hnone as [H1 H2].
    simpl in H2. destruct (validity p (normalize raw)); [discriminate H2|].
    rewrite H1. reflexivity.
  - intros -> -> Hsome. simpl.
    destruct (filter valid (chips s)); [now elim Hsome | reflexivity].
Qed.

Lemma updateChips_required_flag_witness :
  requiredValidation
    (fst (updateChips sampleProps 11 (setInputRef (Some "b@x.com") oneValidChip))) = false.
Proof.
  refine (proj1 (updateChips_required_flag sampleProps 11
            (setInputRef (Some "b@x.com") oneValidChip) "b@x.com" eq_refl _ _) _).
  - discriminate.
  - simpl. intros [H|[]]. discriminate H.
  - reflexivity.
Defined.

(** C2 as stated fails.  With [required] active, start empty, commit the
    valid "a@x.com" and try to delete it: the deletion is refused and the
    flag is set.  Committing the invalid "bad" then leaves the flag set,
    although a valid chip exists in the collection. *)
Lemma required_flag_not_cleared_by_existing_valid_chip :
  reachable sampleUnlimited afterRefusedDelete /\
  inputRef afterRefusedDelete = Some "bad" /\
  In (mkEmailChip 10 "a@x.com" true) (chips afterRefusedDelete) /\
  chips (fst (updateChips sampleUnlimited 11 afterRefusedDelete)) =
    [mkEmailChip 10 "a@x.com" true; mkEmailChip 11 "bad" false] /\
  requiredValidation (fst (updateChips sampleUnlimited 11 afterRefusedDelete)) <> false.
Proof.
  split; [apply reachable_run, reachable_mount|].
  vm_compute. repeat split; try (now left); discriminate.
Qed.

(** ** The change callback *)

Lemma updateChips_calls (p : EmailInputProps) (now : Z) (s : State) :
  silent_or_reported p s (updateChips p now s).
Proof.
  destruct (inputRef s) as [raw|] eqn:I;
    [|left; now rewrite updateChips_unmounted].
  destruct (string_dec (normalize raw) "") as [E|E];
    [left; now rewrite (updateChips_empty p now s raw)|].
  destruct (in_dec string_dec (normalize raw) (map email (chips s))) as [D|D];
    [left; now rewrite (updateChips_duplicate p now s raw)|].
  right. now rewrite (updateChips_append p now s raw I E D).
Qed.

Lemma deleteChip_calls (p : EmailInputProps) (oc : option EmailChip) (s : State) :
  silent_or_reported p s (deleteChip p oc s).
Proof.
  destruct oc as [c|]; [|now left]. unfold deleteChip.
  destruct (required p && valid c && isOnlyOneValidChip s); [now left | now right].
Qed.

Lemma handleKeyDown_calls (p : EmailInputProps) (k : string) (now : Z) (s : State) :
  silent_or_reported p s (handleKeyDown p k now s).
Proof.
  unfold handleKeyDown.
  destruct (k =? "Enter")%string; [apply updateChips_calls|].
  destruct (k =? "Backspace")%string; [|now left].
  destruct (inputEmpty s && _); [apply deleteChip_calls | now left].
Qed.

Lemma dispatch_calls (p : EmailInputProps) (ev : Event) (s : State) :
  silent_or_reported p s (dispatch p ev s).
Proof.
  destruct ev as [text|k now|now|i]; unfold dispatch.
  - destruct (inputRef s); now left.
  - destruct (inputRef s); [apply handleKeyDown_calls | now left].
  - destruct (inputRef s); [apply updateChips_calls | now left].
  - destruct (nth_error (chips s) i); [apply deleteChip_calls | now left].
Qed.

Lemma step_fst (p : EmailInputProps) (ev : Event) (s : State) :
  fst (step p ev s) = settle p (List.length (chips s)) (fst (dispatch p ev s)).
Proof. unfold step. now destruct (dispatch p ev s). Qed.

Lemma step_snd (p : EmailInputProps) (ev : Event) (s : State) :
  snd (step p ev s) = snd (dispatch p ev s).
Proof. unfold step. now destruct (dispatch p ev s). Qed.

Lemma chips_step (p : EmailInputProps) (ev : Event) (s : State) :
  chips (fst (step p ev s)) = chips (fst (dispatch p ev s)).
Proof. now rewrite step_fst, chips_settle. Qed.

(** C6.  With [onChipChange] supplied, every event that changes the chips
    calls it once, with the resulting list: chip for chip in the order of the
    list, each as its [email] and [valid] only.  The payload does not depend
    on the keys. *)
Theorem change_reports_public_chip_list
    (p : EmailInputProps) (ev : Event) (s : State)
    (Hcb : onChipChange p = true) :
  (chips (fst (step p ev s)) <> chips s ->
   snd (step p ev s) = [emailChipsToEmailData (chips (fst (step p ev s)))]) /\
  (forall cs i,
     nth_error (emailChipsToEmailData cs) i =
     option_map (fun c => mkEmailData (email c) (valid c)) (nth_error cs i)) /\
  (forall cs1 cs2,
     map (fun c => (email c, valid c)) cs1 = map (fun c => (email c, valid c)) cs2 ->
     emailChipsToEmailData cs1 = emailChipsToEmailData cs2).
Proof.
  repeat split.
  - rewrite chips_step, step_snd. intros Hchg.
    destruct (dispatch_calls p ev s) as [[Hsame _]|Hcall]; [now elim Hchg|].
    rewrite Hcall. unfold callOnChipChange. now rewrite Hcb.
  - intros cs i. unfold emailChipsToEmailData. apply nth_error_map.
  - intros cs1. induction cs1 as [|c1 cs1 IH]; intros [|c2 cs2] H;
      try discriminate H; [reflexivity|].
    simpl in *. injection H as He Hv Hrest.
    now rewrite He, Hv, (IH cs2 Hrest).
Qed.

Lemma change_reports_public_chip_list_witness :
  snd (step sampleProps (KeyDown "Enter" 11) (setInputRef (Some "bad") oneValidChip)) =
  [[mkEmailData "a@x.com" true; mkEmailData "bad" false]].
Proof.
  refine (proj1 (change_reports_public_chip_list sampleProps (KeyDown "Enter" 11)
                   (setInputRef (Some "bad") oneValidChip) eq_refl) _).
  vm_compute. discriminate.
Defined.

(** ** One commit, from a settled state *)

Lemma settled_mounted (p : EmailInputProps) (s : State) (v : string) :
  settled p s -> inputRef s = Some v -> disableInput s = false.
Proof.
  intros [_ _ Hin] Hv. destruct (disableInput s); [|reflexivity].
  destruct Hin as [_ Hin]. rewrite (Hin eq_refl) in Hv. discriminate Hv.
Qed.

Lemma settled_setInputRef (p : EmailInputProps) (s : State) (v text : string) :
  settled p s -> inputRef s = Some v -> settled p (setInputRef (Some text) s).
Proof.
  intros Hs Hv. pose proof (settled_mounted p s v Hs Hv) as Hd.
  destruct Hs as [H1 H2 H3]. split; simpl; auto.
  rewrite Hd. split; discriminate.
Qed.

Lemma step_unmounted (p : EmailInputProps) (s : State) (ev : Event) :
  settled p s -> inputRef s = None ->
  (forall i, ev <> ChipClick i) -> step p ev s = (s, []).
Proof.
  intros Hs Hn Hev. unfold step.
  destruct ev as [text|k now|now|i]; simpl; rewrite ?Hn;
    try (unfold settle; rewrite Nat.eqb_refl, (render_settled p s Hs); reflexivity).
  now elim (Hev i).
Qed.

Lemma step_Change (p : EmailInputProps) (s : State) (v text : string) :
  settled p s -> inputRef s = Some v ->
  step p (Change text) s = (setInputRef (Some text) s, []).
Proof.
  intros Hs Hv. unfold step. simpl. rewrite Hv.
  unfold settle. simpl. rewrite Nat.eqb_refl.
  now rewrite (render_settled p _ (settled_setInputRef p s v text Hs Hv)).
Qed.

Lemma step_Enter (p : EmailInputProps) (s : State) (v : string) (now : Z) :
  inputRef s = Some v ->
  step p (KeyDown "Enter" now) s =
  (settle p (List.length (chips s)) (fst (updateChips p now s)),
   snd (updateChips p now s)).
Proof.
  intros Hv. unfold step, dispatch, handleKeyDown. rewrite Hv.
  cbn [String.eqb Ascii.eqb Bool.eqb]. cbv iota.
  now destruct (updateChips p now s).
Qed.

Lemma run_commitEntry (p : EmailInputProps) (s : State) (raw : string) (now : Z) :
  settled p s ->
  fst (run p (commitEntry raw now) s) =
  match inputRef s with
  | None => s
  | Some _ =>
      settle p (List.length (chips s))
        (fst (updateChips p now (setInputRef (Some raw) s)))
  end.
Proof.
  intros Hs. unfold commitEntry, run.
  destruct (inputRef s) as [v|] eqn:Hv.
  - rewrite (step_Change p s v raw Hs Hv).
    rewrite (step_Enter p (setInputRef (Some raw) s) raw now eq_refl).
    reflexivity.
  - rewrite (step_unmounted p s (Change raw) Hs Hv) by discriminate.
    rewrite (step_unmounted p s (KeyDown "Enter" now) Hs Hv) by discriminate.
    reflexivity.
Qed.

Lemma settled_commitEntry (p : EmailInputProps) (s : State) (raw : string) (now : Z) :
  settled p s -> settled p (fst (run p (commitEntry raw now) s)).
Proof.
  intros Hs. unfold commitEntry, run.
  destruct (step p (Change raw) s) as [s1 c1] eqn:E1.
  destruct (step p (KeyDown "Enter" now) s1) as [s2 c2] eqn:E2. simpl.
  change s2 with (fst (s2, c2)). rewrite <- E2. apply settled_step.
  change s1 with (fst (s1, c1)). rewrite <- E1. now apply settled_step.
Qed.

(** A commit that finds no input, only white space, or a chip with the same
    normalized text leaves the chips as they are. *)
Lemma commitEntry_ignored (p : EmailInputProps) (s : State) (raw : string) (now : Z) :
  settled p s ->
  inputRef s = None \/ normalize raw = "" \/ In (normalize raw) (map email (chips s)) ->
  chips (fst (run p (commitEntry raw now) s)) = chips s.
Proof.
  intros Hs Hwhy. rewrite (run_commitEntry p s raw now Hs).
  destruct (inputRef s) as [v|] eqn:Hv; [|reflexivity].
  rewrite chips_settle.
  destruct (string_dec (normalize raw) "") as [E|E].
  - now rewrite (updateChips_empty p now (setInputRef (Some raw) s) raw eq_refl E).
  - destruct Hwhy as [H|[H|H]]; [discriminate H | now elim E |].
    now rewrite (updateChips_duplicate p now (setInputRef (Some raw) s) raw eq_refl E H).
Qed.

(** Otherwise the commit appends one chip. *)
Lemma commitEntry_appends (p : EmailInputProps) (s : State) (raw v : string) (now : Z) :
  settled p s -> inputRef s = Some v -> normalize raw <> "" ->
  ~ In (normalize raw) (map email (chips s)) ->
  chips (fst (run p (commitEntry raw now) s)) =
  chips s ++ [mkEmailChip now (normalize raw) (validity p (normalize raw))].
Proof.
  intros Hs Hv Hne Hnew. rewrite (run_commitEntry p s raw now Hs), Hv.
  rewrite chips_settle.
  now rewrite (updateChips_append p now (setInputRef (Some raw) s) raw eq_refl Hne Hnew).
Qed.

(** Either way the normalized text, unless empty, is the email of a chip
    once the commit is done, provided there was an input to commit from. *)
Lemma commitEntry_present (p : EmailInputProps) (s : State) (raw v : string) (now : Z) :
  settled p s -> inputRef s = Some v -> normalize raw <> "" ->
  In (normalize raw) (map email (chips (fst (run p (commitEntry raw now) s)))).
Proof.
  intros Hs Hv Hne.
  destruct (in_dec string_dec (normalize raw) (map email (chips s))) as [D|D].
  - rewrite commitEntry_ignored; auto.
  - rewrite (commitEntry_appends p s raw v now Hs Hv Hne D).
    rewrite map_app, in_app_iff. right. now left.
Qed.

(** C4, as the code has it.  When the text of the input has a normalized
    form that is not empty and is the email of a chip, [updateChips] clears
    the input and does nothing else: same chips, same flags, no call of
    [onChipChange].  And committing two texts with the same normalized form
    one after the other, from any reachable state, leaves the chips after the
    second commit as they were after the first. *)
Theorem duplicate_commit_is_ignored (p : EmailInputProps) :
  (forall now s raw,
     inputRef s = Some raw -> normalize raw <> "" ->
     In (normalize raw) (map email (chips s)) ->
     updateChips p now s = (setInputRef (Some "") s, []) /\
     chips (fst (updateChips p now s)) = chips s /\
     inputRef (fst (updateChips p now s)) = Some "" /\
     requiredValidation (fst (updateChips p now s)) = requiredValidation s /\
     limitValidation (fst (updateChips p now s)) = limitValidation s /\
     snd (updateChips p now s) = []) /\
  (forall s raw1 raw2 now1 now2,
     reachable p s -> normalize raw1 = normalize raw2 ->
     let s1 := fst (run p (commitEntry raw1 now1) s) in
     let s2 := fst (run p (commitEntry raw2 now2) s1) in
     chips s2 = chips s1 /\ List.length (chips s2) = List.length (chips s1)).
Proof.
  split.
  - intros now s raw Hin Hne Hdup.
    rewrite (updateChips_duplicate p now s raw Hin Hne Hdup). simpl. tauto.
  - intros s raw1 raw2 now1 now2 Hr Heq s1 s2.
    apply reachable_settled in Hr.
    assert (Hs1 : settled p s1) by now apply settled_commitEntry.
    assert (Hchips : chips s2 = chips s1).
    { subst s2. apply commitEntry_ignored; [exact Hs1|].
      destruct (inputRef s) as [v|] eqn:Hv.
      - destruct (string_dec (normalize raw1) "") as [E|E].
        + right; left. now rewrite <- Heq.
        + right; right. rewrite <- Heq. subst s1.
          now apply commitEntry_present with v.
      - left. subst s1. now rewrite (run_commitEntry p s raw1 now1 Hr), Hv. }
    split; [exact Hchips | now rewrite Hchips].
Qed.

Lemma duplicate_commit_is_ignored_witness :
  updateChips sampleProps 11 (setInputRef (Some " A@X.com ") oneValidChip) =
  (oneValidChip, []) /\
  List.length (chips (fst (run sampleProps
     (commitEntry "b@x.com" 6 ++ commitEntry "  B@X.COM" 7) (mount sampleProps 5)))) =
  List.length (chips (fst (run sampleProps (commitEntry "b@x.com" 6) (mount sampleProps 5)))).
Proof.
  split.
  - refine (proj1 (proj1 (duplicate_commit_is_ignored sampleProps) 11%Z
                    (setInputRef (Some " A@X.com ") oneValidChip) " A@X.com "
                    eq_refl _ _)).
    + discriminate.
    + now left.
  - exact (proj2 (proj2 (duplicate_commit_is_ignored sampleProps)
                    (mount sampleProps 5) "b@x.com" "  B@X.COM" 6%Z 7%Z
                    (reachable_mount sampleProps 5) eq_refl)).
Defined.

(** C4 as stated fails on empty text.  Seed the widget with the empty email
    and type one space: the normalized text is the email of the seeded chip,
    yet [updateChips] returns at its emptiness test and the space stays in
    the input. *)
Lemma empty_duplicate_keeps_input :
  reachable seededEmpty spaceTyped /\
  inputRef spaceTyped = Some " " /\
  In (normalize " ") (map email (chips spaceTyped)) /\
  inputRef (fst (updateChips seededEmpty 6 spaceTyped)) = Some " " /\
  inputRef (fst (updateChips seededEmpty 6 spaceTyped)) <> Some "".
Proof.
  split; [apply reachable_run, reachable_mount|].
  vm_compute. repeat split; try (now left); discriminate.
Qed.

(** ** Uniqueness of emails *)

Lemma nth_error_mapi_from {A B : Type} (f : A -> Z -> B) (xs : list A) :
  forall (k : Z) (i : nat),
    nth_error (mapi_from f k xs) i =
    option_map (fun x => f x (k + Z.of_nat i)%Z) (nth_error xs i).
Proof.
  induction xs as [|x xs IH]; intros k [|i]; simpl; try reflexivity.
  - now rewrite Z.add_0_r.
  - rewrite IH. destruct (nth_error xs i); simpl; [|reflexivity].
    f_equal. f_equal. lia.
Qed.

Lemma map_email_mapi_from (now : Z) (emails : list string) :
  forall k, map email (mapi_from (fun e i => mkEmailChip (now - i) e true) k emails) = emails.
Proof.
  induction emails as [|e emails IH]; intros k; simpl; [reflexivity|].
  now rewrite IH.
Qed.

Lemma map_email_initialChips (p : EmailInputProps) (now : Z) :
  map email (initialChips p now) = seeds p.
Proof.
  unfold initialChips, seeds. destruct (initialEmails p); [|reflexivity].
  apply map_email_mapi_from.
Qed.

Lemma chips_mount (p : EmailInputProps) (now : Z) :
  chips (mount p now) = initialChips p now.
Proof. unfold mount. now rewrite chips_render, chips_limitEffect, chips_render. Qed.

(** What an event can do to the chips: nothing, remove the chips of one key,
    or append one chip whose email is a normalized text not yet present. *)
Lemma dispatch_chips (p : EmailInputProps) (ev : Event) (s : State) :
  let cs' := chips (fst (dispatch p ev s)) in
  cs' = chips s \/
  (exists k, cs' = filter (fun chip => negb (key chip =? k)%Z) (chips s)) \/
  (exists raw now b,
     normalize raw <> "" /\ ~ In (normalize raw) (map email (chips s)) /\
     cs' = chips s ++ [mkEmailChip now (normalize raw) b]).
Proof.
  assert (Hupd : forall now s0,
    chips (fst (updateChips p now s0)) = chips s0 \/
    (exists raw t b,
       normalize raw <> "" /\ ~ In (normalize raw) (map email (chips s0)) /\
       chips (fst (updateChips p now s0)) =
       chips s0 ++ [mkEmailChip t (normalize raw) b])).
  { intros now s0.
    destruct (updateChips_cases p now s0) as [H|[H|(raw & _ & H1 & H2 & H3)]].
    - left. now rewrite H.
    - left. now rewrite H.
    - right. now exists raw, now, (validity p (normalize raw)). }
  assert (Hdel : forall oc s0,
    chips (fst (deleteChip p oc s0)) = chips s0 \/
    exists k, chips (fst (deleteChip p oc s0)) =
              filter (fun chip => negb (key chip =? k)%Z) (chips s0)).
  { intros [c|] s0; [|now left]. unfold deleteChip.
    destruct (required p && valid c && isOnlyOneValidChip s0);
      [now left | right; now exists (key c)]. }
  destruct ev as [text|k now|now|i]; unfold dispatch.
  - destruct (inputRef s); now left.
  - destruct (inputRef s); [|now left]. unfold handleKeyDown.
    destruct (k =? "Enter")%string.
    { destruct (Hupd now s) as [H|H]; [left; exact H | right; right; exact H]. }
    destruct (k =? "Backspace")%string; [|now left].
    destruct (inputEmpty s && _); [|now left].
    destruct (Hdel (lastChip s) s) as [H|H]; [left; exact H | right; left; exact H].
  - destruct (inputRef s); [|now left].
    destruct (Hupd now s) as [H|H]; [left; exact H | right; right; exact H].
  - destruct (nth_error (chips s) i); [|now left].
    destruct (Hdel (Some e) s) as [H|H]; [left; exact H | right; left; exact H].
Qed.

Lemma NoDup_map_filter {A B : Type} (g : A -> B) (f : A -> bool) (l : list A) :
  NoDup (map g l) -> NoDup (map g (filter f l)).
Proof.
  induction l as [|a l IH]; simpl; intros H; [constructor|].
  inversion H as [|? ? Hnotin Hnd]; subst.
  destruct (f a); simpl; [|now apply IH].
  constructor; [|now apply IH].
  intros Hin. apply Hnotin. apply in_map_iff in Hin.
  destruct Hin as (x & Hx & Hf). apply filter_In in Hf.
  apply in_map_iff. exists x. tauto.
Qed.

Lemma emailsDistinctNormalized_step (p : EmailInputProps) (ev : Event) (s : State) :
  emailsDistinctNormalized (chips s) ->
  emailsDistinctNormalized (chips (fst (step p ev s))).
Proof.
  intros [Hnd Hnorm]. rewrite chips_step.
  destruct (dispatch_chips p ev s) as [H|[(k & H)|(raw & now & b & Hne & Hnew & H)]];
    rewrite H; clear H.
  - now split.
  - split; [now apply NoDup_map_filter|].
    apply Forall_forall. intros c Hc. apply filter_In in Hc.
    rewrite Forall_forall in Hnorm. now apply Hnorm.
  - split.
    + rewrite map_app. simpl. apply NoDup_app; [exact Hnd | | ].
      * constructor; [intros [] | constructor].
      * intros x Hx [Hx'|[]]. simpl in Hx'. subst x. now apply Hnew.
    + apply Forall_app. split; [exact Hnorm|].
      constructor; [|constructor]. simpl. apply normalize_idem.
Qed.

(** C3, as the code has it.  When the seed emails are already normalized
    (trimmed and lower-cased) and pairwise different -- in particular when
    there are none -- then in every reachable state no two chips have the
    same email, compared after trimming and lower-casing; the emails are
    then also pairwise different as they stand. *)
Theorem reachable_emails_unique
    (p : EmailInputProps)
    (Hnorm : Forall (fun e => normalize e = e) (seeds p))
    (Hdistinct : NoDup (seeds p))
    (s : State) (Hreach : reachable p s) :
  NoDup (map (fun c => normalize (email c)) (chips s)) /\
  NoDup (map email (chips s)).
Proof.
  assert (Hinv : emailsDistinctNormalized (chips s)).
  { induction Hreach as [now|s ev _ IH].
    - rewrite chips_mount. split.
      + now rewrite map_email_initialChips.
      + rewrite Forall_forall in *. intros c Hc. apply Hnorm.
        rewrite <- (map_email_initialChips p now). now apply in_map.
    - now apply emailsDistinctNormalized_step. }
  destruct Hinv as [Hnd Hfix]. split; [|exact Hnd].
  replace (map (fun c => normalize (email c)) (chips s)) with (map email (chips s));
    [exact Hnd|].
  apply map_ext_in. intros c Hc. rewrite Forall_forall in Hfix.
  symmetry. now apply Hfix.
Qed.

Lemma reachable_emails_unique_witness :
  NoDup (map (fun c => normalize (email c))
           (chips (fst (run sampleProps
              (commitEntry "a@x.com" 6 ++ commitEntry " A@X.com" 7)
              (mount sampleProps 5))))).
Proof.
  apply (reachable_emails_unique sampleProps).
  - constructor.
  - constructor.
  - apply reachable_run, reachable_mount.
Defined.

(** C3 as stated fails: the seeds are taken as they are.  Two equal seed
    emails give two chips, with different keys and the same email. *)
Lemma seeded_duplicates_share_email :
  reachable seededTwice (mount seededTwice 100) /\
  chips (mount seededTwice 100) =
    [mkEmailChip 100 "a@x.com" true; mkEmailChip 99 "a@x.com" true] /\
  ~ NoDup (map (fun c => normalize (email c)) (chips (mount seededTwice 100))).
Proof.
  split; [apply reachable_mount|]. split; [reflexivity|].
  intros H. vm_compute in H. inversion H as [|? ? Hnotin _]; subst.
  apply Hnotin. now left.
Qed.

(** ** Keys *)

(** C10.  A deletion that is not refused keeps exactly the chips whose key
    differs from the key of the chip to delete.  Keys are clock readings:
    the chip added by a commit has the time of the commit as its key, the
    seed at position [i] the time of mounting minus [i].  So two commits in
    the same millisecond give two different chips with one key, and deleting
    either removes both. *)
Theorem deleteChip_filters_by_key :
  (forall p s c,
     required p && valid c && isOnlyOneValidChip s = false ->
     chips (fst (deleteChip p (Some c) s)) =
     filter (fun chip => negb (key chip =? key c)%Z) (chips s)) /\
  (forall p now s raw,
     inputRef s = Some raw -> normalize raw <> "" ->
     ~ In (normalize raw) (map email (chips s)) ->
     exists c, chips (fst (updateChips p now s)) = chips s ++ [c] /\ key c = now) /\
  (forall p now i c,
     nth_error (initialChips p now) i = Some c -> key c = (now - Z.of_nat i)%Z) /\
  (reachable sampleUnlimited sameMillisecond /\
   chips sameMillisecond =
     [mkEmailChip 10 "a@x.com" true; mkEmailChip 10 "b@x.com" true] /\
   chips (fst (step sampleUnlimited (ChipClick 0) sameMillisecond)) = []).
Proof.
  split; [|split; [|split]].
  - intros p s c Hperm. now rewrite (deleteChip_permitted p s c Hperm).
  - intros p now s raw Hin Hne Hnew.
    rewrite (updateChips_append p now s raw Hin Hne Hnew).
    eexists. split; reflexivity.
  - intros p now i c. unfold initialChips.
    destruct (initialEmails p) as [emails|]; [|destruct i; discriminate].
    rewrite nth_error_mapi_from.
    destruct (nth_error emails i); simpl; [|discriminate].
    intros H. injection H as <-. reflexivity.
  - split; [apply reachable_run, reachable_mount|]. split; reflexivity.
Qed.

Lemma deleteChip_filters_by_key_witness :
  chips (fst (deleteChip sampleProps (Some (mkEmailChip 10 "a@x.com" true))
                (setChips [mkEmailChip 10 "a@x.com" true; mkEmailChip 10 "b@x.com" true]
                   oneValidChip))) = [].
Proof.
  exact (proj1 deleteChip_filters_by_key sampleProps
           (setChips [mkEmailChip 10 "a@x.com" true; mkEmailChip 10 "b@x.com" true]
              oneValidChip)
           (mkEmailChip 10 "a@x.com" true) eq_refl).
Defined.

(** ** The limit *)

(** C9.  [updateChips] does not read [limit]: it behaves the same under any
    limit, and with text in the input whose normalized form is not empty and
    not yet present it appends a chip however many chips there are.  The
    initializer makes one chip per seed email, whatever the limit.  So the
    number of chips can exceed the limit, which only sets the flags. *)
Theorem commit_and_seeding_ignore_limit :
  (forall p l now s, updateChips (withLimit l p) now s = updateChips p now s) /\
  (forall p now s raw,
     inputRef s = Some raw -> normalize raw <> "" ->
     ~ In (normalize raw) (map email (chips s)) ->
     chips (fst (updateChips p now s)) =
     chips s ++ [mkEmailChip now (normalize raw) (validity p (normalize raw))] /\
     List.length (chips (fst (updateChips p now s))) = S (List.length (chips s))) /\
  (forall p now,
     map email (chips (mount p now)) = seeds p /\
     List.length (chips (mount p now)) = List.length (seeds p)) /\
  (reachable seededOverLimit (mount seededOverLimit 100) /\
   List.length (chips (mount seededOverLimit 100)) = 3%nat /\
   limit seededOverLimit = Some 2%Z /\
   disableInput (mount seededOverLimit 100) = true /\
   limitValidation (mount seededOverLimit 100) = true).
Proof.
  split; [|split; [|split]].
  - intros p l now s. reflexivity.
  - intros p now s raw Hin Hne Hnew.
    rewrite (updateChips_append p now s raw Hin Hne Hnew). cbn [fst chips].
    split; [reflexivity|]. rewrite length_app. simpl. lia.
  - intros p now. rewrite chips_mount, <- (map_email_initialChips p now).
    split; [reflexivity | now rewrite length_map].
  - split; [apply reachable_mount|]. repeat split.
Qed.

Lemma commit_and_seeding_ignore_limit_witness :
  List.length
    (chips (fst (updateChips sampleProps 12
       (mkState [mkEmailChip 10 "a@x.com" true; mkEmailChip 11 "bad" false]
          false false false (Some "c@x.com"))))) = 3%nat.
Proof.
  refine (proj2 (proj1 (proj2 commit_and_seeding_ignore_limit) sampleProps 12%Z
     (mkState [mkEmailChip 10 "a@x.com" true; mkEmailChip 11 "bad" false]
        false false false (Some "c@x.com")) "c@x.com" eq_refl _ _)).
  - discriminate.
  - simpl. intros [H|[H|[]]]; discriminate H.
Defined.

Lemma run_app (p : EmailInputProps) (evs1 evs2 : list Event) (s : State) :
  fst (run p (evs1 ++ evs2) s) = fst (run p evs2 (fst (run p evs1 s))).
Proof.
  revert s. induction evs1 as [|ev evs1 IH]; intros s; simpl; [reflexivity|].
  destruct (step p ev s) as [s1 c1]. specialize (IH s1).
  destruct (run p (evs1 ++ evs2) s1) as [s2 c2].
  destruct (run p evs1 s1) as [s3 c3]. simpl in *.
  rewrite IH. now destruct (run p evs2 s3).
Qed.

Lemma settled_enabled (p : EmailInputProps) (s : State) :
  settled p s -> limitReached p (List.length (chips s)) = false ->
  exists v, inputRef s = Some v.
Proof.
  intros [H1 _ H3] Hlim. destruct (inputRef s) as [v|]; [now exists v|].
  destruct H3 as [H3 _]. specialize (H3 eq_refl). congruence.
Qed.

(** Commits of pairwise different, non-empty, new normalized texts, made
    while the limit is not reached, append one chip each, in order. *)
Lemma commitEntries_distinct (p : EmailInputProps) (entries : list (string * Z)) :
  forall s,
    settled p s ->
    (forall k, (k < List.length (chips s) + List.length entries)%nat ->
               limitReached p k = false) ->
    NoDup (map (fun e => normalize (fst e)) entries) ->
    (forall e, In e entries ->
               normalize (fst e) <> "" /\
               ~ In (normalize (fst e)) (map email (chips s))) ->
    chips (fst (run p (commitEntries entries) s)) =
    chips s ++ map (fun e => mkEmailChip (snd e) (normalize (fst e))
                               (validity p (normalize (fst e)))) entries.
Proof.
  induction entries as [|[raw now] entries IH]; intros s Hs Hlim Hnd Hnew.
  - simpl. now rewrite app_nil_r.
  - change (commitEntries ((raw, now) :: entries))
      with (commitEntry raw now ++ commitEntries entries).
    rewrite run_app.
    destruct (settled_enabled p s Hs) as [v Hv].
    { apply Hlim. simpl. lia. }
    destruct (Hnew (raw, now) (or_introl eq_refl)) as [Hne Hfresh]. simpl in Hne, Hfresh.
    pose proof (commitEntry_appends p s raw v now Hs Hv Hne Hfresh) as Happ.
    pose proof (settled_commitEntry p s raw now Hs) as Hs1.
    inversion Hnd as [|? ? Hhead Htail]; subst.
    rewrite IH; auto.
    + rewrite Happ, <- app_assoc. reflexivity.
    + intros k Hk. apply Hlim. rewrite Happ, length_app in Hk. simpl in *. lia.
    + intros e He. destruct (Hnew e (or_intror He)) as [He1 He2].
      split; [exact He1|]. rewrite Happ, map_app, in_app_iff. simpl.
      intros [H|[H|[]]]; [now apply He2|].
      apply Hhead. rewrite H. apply in_map_iff. now exists e.
Qed.

Lemma limitReached_spec (p : EmailInputProps) (count : nat) :
  limitReached p count = true <->
  exists l, limit p = Some l /\ l <> 0%Z /\ (l <= Z.of_nat count)%Z.
Proof.
  unfold limitReached. destruct (limit p) as [l|].
  - rewrite andb_true_iff, negb_true_iff, Z.eqb_neq, Z.leb_le. split.
    + intros [H1 H2]. now exists l.
    + intros (l' & Hl & H1 & H2). injection Hl as <-. now split.
  - split; [discriminate | intros (l & Hl & _); discriminate Hl].
Qed.

(** C5.  Take [limit], when given, to be a positive integer.  In every
    reachable state the input is disabled (and not rendered) exactly when a
    limit is given and the number of chips is at least the limit, and the
    flag of the limit message has the same value.  In particular: starting
    without seeds, after as many commits of pairwise different texts as the
    limit allows the input is disabled; and from a state with exactly
    [limit] chips, an event that leaves fewer chips enables it again. *)
Theorem limit_flags_follow_chip_count
    (p : EmailInputProps)
    (Hpos : forall l, limit p = Some l -> (0 < l)%Z) :
  (forall s, reachable p s ->
     (disableInput s = true <->
      exists l, limit p = Some l /\ (l <= Z.of_nat (List.length (chips s)))%Z) /\
     limitValidation s = disableInput s /\
     (inputRef s = None <-> disableInput s = true)) /\
  (forall l now entries,
     limit p = Some l -> seeds p = [] ->
     Z.of_nat (List.length entries) = l ->
     NoDup (map (fun e => normalize (fst e)) entries) ->
     (forall e, In e entries -> normalize (fst e) <> "") ->
     let s := fst (run p (commitEntries entries) (mount p now)) in
     List.length (chips s) = List.length entries /\
     disableInput s = true /\ limitValidation s = true /\ inputRef s = None) /\
  (forall l s ev,
     reachable p s -> limit p = Some l ->
     Z.of_nat (List.length (chips s)) = l ->
     (List.length (chips (fst (step p ev s))) < List.length (chips s))%nat ->
     disableInput (fst (step p ev s)) = false /\
     limitValidation (fst (step p ev s)) = false /\
     inputRef (fst (step p ev s)) = Some "").
Proof.
  assert (Hflag : forall s, settled p s ->
            (disableInput s = true <->
             exists l, limit p = Some l /\ (l <= Z.of_nat (List.length (chips s)))%Z)).
  { intros s [H1 _ _]. rewrite H1, limitReached_spec. split.
    - intros (l & Hl & _ & Hle). now exists l.
    - intros (l & Hl & Hle). exists l. repeat split; auto.
      specialize (Hpos l Hl). lia. }
  split; [|split].
  - intros s Hr. apply reachable_settled in Hr. split; [now apply Hflag|].
    destruct Hr as [_ H2 H3]. now split.
  - intros l now entries Hl Hseeds Hlen Hnd Hne s.
    assert (Hempty : chips (mount p now) = []).
    { rewrite chips_mount. apply map_eq_nil with (f := email).
      now rewrite map_email_initialChips. }
    assert (Hchips : List.length (chips s) = List.length entries).
    { subst s. rewrite commitEntries_distinct.
      - rewrite Hempty. simpl. now rewrite length_map.
      - apply settled_mount.
      - intros k Hk. rewrite Hempty in Hk. simpl in Hk.
        destruct (limitReached p k) eqn:E; [|reflexivity].
        apply limitReached_spec in E. destruct E as (l' & Hl' & _ & Hle).
        rewrite Hl in Hl'. injection Hl' as <-. lia.
      - exact Hnd.
      - intros e He. split; [now apply Hne|]. rewrite Hempty. intros []. }
    assert (Hs : settled p s).
    { subst s. apply reachable_settled, reachable_run, reachable_mount. }
    assert (Hd : disableInput s = true).
    { apply Hflag; [exact Hs|]. exists l. split; [exact Hl|]. lia. }
    destruct Hs as [_ H2 H3].
    repeat split; auto; [now rewrite H2 | now apply H3].
  - intros l s ev Hr Hl Hcount Hless.
    assert (Hs' : settled p (fst (step p ev s))).
    { apply settled_step. now apply reachable_settled. }
    assert (Hd : disableInput (fst (step p ev s)) = false).
    { destruct (disableInput (fst (step p ev s))) eqn:E; [|reflexivity].
      apply Hflag in E; [|exact Hs']. destruct E as (l' & Hl' & Hle).
      rewrite Hl in Hl'. injection Hl' as <-. lia. }
    split; [exact Hd|]. split.
    { destruct Hs' as [_ H2 _]. now rewrite H2. }
    (* the input was not rendered before, and is mounted empty *)
    assert (Hbefore : inputRef s = None).
    { apply reachable_settled in Hr. destruct Hr as [H1 _ H3]. apply H3.
      rewrite H1. apply limitReached_spec. exists l.
      specialize (Hpos l Hl). repeat split; auto; lia. }
    rewrite step_fst in *. rewrite chips_settle in Hless.
    destruct (dispatch_frame p ev s) as (Hdis & _ & Href).
    apply Href in Hbefore.
    unfold settle in *.
    destruct (_ =? _)%nat eqn:E.
    { apply Nat.eqb_eq in E. lia. }
    rewrite inputRef_render. rewrite disableInput_render in Hd. rewrite Hd.
    cbn [limitEffect setLimitValidation setDisableInput inputRef].
    rewrite inputRef_render, Hbefore.
    now destruct (disableInput (fst (dispatch p ev s))).
Qed.

Lemma limit_flags_follow_chip_count_witness :
  disableInput (fst (run sampleProps
     (commitEntries [("a@x.com", 6%Z); ("b@x.com", 7%Z)]) (mount sampleProps 5))) = true /\
  disableInput (fst (step sampleProps (ChipClick 0)
     (fst (run sampleProps
        (commitEntries [("a@x.com", 6%Z); ("b@x.com", 7%Z)]) (mount sampleProps 5))))) = false.
Proof.
  assert (Hpos : forall l, limit sampleProps = Some l -> (0 < l)%Z).
  { intros l H. injection H as <-. lia. }
  destruct (limit_flags_follow_chip_count sampleProps Hpos) as (_ & Hfull & Hless).
  split.
  - apply (Hfull 2%Z 5%Z [("a@x.com", 6%Z); ("b@x.com", 7%Z)]); try reflexivity.
    + repeat constructor; simpl; intuition discriminate.
    + intros e [<-|[<-|[]]]; discriminate.
  - apply (Hless 2%Z); try reflexivity.
    + apply reachable_run, reachable_mount.
    + vm_compute. lia.
Defined.

(** A limit of zero is no limit: [!!limit] is false for it. *)
Lemma zero_limit_never_disables (p : EmailInputProps) (s : State) :
  limit p = Some 0%Z -> reachable p s -> disableInput s = false.
Proof.
  intros Hl Hr. apply reachable_settled in Hr. destruct Hr as [H1 _ _].
  rewrite H1. unfold limitReached. now rewrite Hl.
Qed.

(** ** Every event is handled in one of four ways *)

Lemma updateChips_handled (p : EmailInputProps) (ev : Event) (now : Z) (s : State) :
  eventClock ev = Some now -> handled p s ev (fst (updateChips p now s)).
Proof.
  intros Hclock.
  destruct (inputRef s) as [raw|] eqn:I.
  - destruct (string_dec (normalize raw) "") as [E|E].
    + rewrite (updateChips_empty p now s raw I E). now apply handled_idle.
    + destruct (in_dec string_dec (normalize raw) (map email (chips s))) as [D|D].
      * rewrite (updateChips_duplicate p now s raw I E D). now apply handled_idle.
      * rewrite (updateChips_append p now s raw I E D). cbn [fst].
        now apply handled_added.
  - rewrite (updateChips_unmounted p now s I). now apply handled_idle.
Qed.

Lemma deleteChip_handled (p : EmailInputProps) (ev : Event) (oc : option EmailChip)
    (s : State) :
  (forall c, oc = Some c -> In c (chips s)) ->
  handled p s ev (fst (deleteChip p oc s)).
Proof.
  intros Hin. destruct oc as [c|]; [|now apply handled_idle].
  specialize (Hin c eq_refl). unfold deleteChip.
  destruct (required p && valid c && isOnlyOneValidChip s) eqn:G; cbn [fst].
  - apply andb_true_iff in G. destruct G as [G G3].
    apply andb_true_iff in G. destruct G as [G1 G2].
    now apply handled_refused with c.
  - now apply handled_deleted.
Qed.

Lemma dispatch_handled (p : EmailInputProps) (ev : Event) (s : State) :
  handled p s ev (fst (dispatch p ev s)).
Proof.
  destruct ev as [text|k now|now|i]; unfold dispatch.
  - destruct (inputRef s); now apply handled_idle.
  - destruct (inputRef s); [|now apply handled_idle]. unfold handleKeyDown.
    destruct (k =? "Enter")%string; [now apply updateChips_handled|].
    destruct (k =? "Backspace")%string; [|now apply handled_idle].
    destruct (inputEmpty s && _); [|now apply handled_idle].
    apply deleteChip_handled. intros c Hc. unfold lastChip in Hc.
    now apply nth_error_In in Hc.
  - destruct (inputRef s); [|now apply handled_idle].
    now apply updateChips_handled.
  - destruct (nth_error (chips s) i) as [c|] eqn:Hi; [|now apply handled_idle].
    apply deleteChip_handled. intros c' Hc'. injection Hc' as <-.
    now apply nth_error_In in Hi.
Qed.

(** The same for the whole step: rendering changes neither the chips nor the
    required flag. *)
Lemma step_handled (p : EmailInputProps) (ev : Event) (s : State) :
  exists s', handled p s ev s' /\
             chips (fst (step p ev s)) = chips s' /\
             requiredValidation (fst (step p ev s)) = requiredValidation s'.
Proof.
  exists (fst (dispatch p ev s)). split; [apply dispatch_handled|].
  now rewrite step_fst, chips_settle, requiredValidation_settle.
Qed.

Lemma ticking_reachable (p : EmailInputProps) (t : Z) (s : State) :
  ticking p t s -> reachable p s.
Proof. induction 1; now constructor. Qed.

(** ** The listener stays in step with the chips *)

Lemma step_calls (p : EmailInputProps) (ev : Event) (s : State) :
  onChipChange p = true ->
  (chips (fst (step p ev s)) = chips s /\ snd (step p ev s) = []) \/
  snd (step p ev s) = [emailChipsToEmailData (chips (fst (step p ev s)))].
Proof.
  intros Hcb. rewrite chips_step, step_snd.
  destruct (dispatch_calls p ev s) as [H|H]; [now left|right].
  rewrite H. unfold callOnChipChange. now rewrite Hcb.
Qed.

(** X1.  With [onChipChange] supplied, over any sequence of events from any
    state: if no call was made the chips are what they were, and otherwise
    the last call carried the public form of the chips as they are now. *)
Theorem last_call_is_current_chips
    (p : EmailInputProps) (evs : list Event) (s : State)
    (Hcb : onChipChange p = true) :
  (snd (run p evs s) = [] /\ chips (fst (run p evs s)) = chips s) \/
  (exists earlier,
     snd (run p evs s) =
     earlier ++ [emailChipsToEmailData (chips (fst (run p evs s)))]).
Proof.
  revert s. induction evs as [|ev evs IH]; intros s; [now left|].
  simpl. pose proof (step_calls p ev s Hcb) as Hstep.
  destruct (step p ev s) as [s1 c1]. specialize (IH s1).
  destruct (run p evs s1) as [s2 c2]. cbn [fst snd] in *.
  destruct IH as [[Hc2 Hsame]|[earlier Hc2]].
  - subst c2. rewrite app_nil_r, Hsame.
    destruct Hstep as [[Hchips Hc1]|Hc1].
    + left. now split.
    + right. exists []. exact Hc1.
  - right. exists (c1 ++ earlier). now rewrite Hc2, app_assoc.
Qed.

Lemma last_call_is_current_chips_witness :
  (snd (run sampleProps (commitEntry "b@x.com" 11 ++ [ChipClick 0]) oneValidChip) = [] /\
   chips (fst (run sampleProps (commitEntry "b@x.com" 11 ++ [ChipClick 0]) oneValidChip)) =
   chips oneValidChip) \/
  (exists earlier,
     snd (run sampleProps (commitEntry "b@x.com" 11 ++ [ChipClick 0]) oneValidChip) =
     earlier ++ [emailChipsToEmailData
                   (chips (fst (run sampleProps
                      (commitEntry "b@x.com" 11 ++ [ChipClick 0]) oneValidChip)))]).
Proof.
  exact (last_call_is_current_chips sampleProps
           (commitEntry "b@x.com" 11 ++ [ChipClick 0]) oneValidChip eq_refl).
Defined.

(** ** The limit caps what commits can reach *)

Lemma filter_length_le {A : Type} (f : A -> bool) (l : list A) :
  (List.length (filter f l) <= List.length l)%nat.
Proof.
  induction l as [|a l IH]; simpl; [lia|]. destruct (f a); simpl; lia.
Qed.

(** X2.  With a limit other than zero, the number of chips never exceeds the
    larger of the limit and the number of seed emails; without seeds it never
    exceeds the limit. *)
Theorem chip_count_capped_by_limit
    (p : EmailInputProps) (l : Z) (s : State)
    (Hl : limit p = Some l) (Hnz : l <> 0%Z)
    (Hreach : reachable p s) :
  (Z.of_nat (List.length (chips s)) <= Z.max l (Z.of_nat (List.length (seeds p))))%Z /\
  (seeds p = [] -> (0 < l)%Z -> (Z.of_nat (List.length (chips s)) <= l)%Z).
Proof.
  assert (Hcap : (Z.of_nat (List.length (chips s))
                  <= Z.max l (Z.of_nat (List.length (seeds p))))%Z).
  { induction Hreach as [now|s ev Hr IH].
    - rewrite chips_mount, <- (map_email_initialChips p now), length_map. lia.
    - apply reachable_settled in Hr.
      destruct (step_handled p ev s) as (s' & Hh & Hc & _). rewrite Hc.
      destruct Hh as [s' Hsame _|c _ _ _ _|c _ _|raw now _ Hin _ _]; cbn [chips setChips setRequiredValidation].
      + now rewrite Hsame.
      + exact IH.
      + pose proof (filter_length_le (fun chip => negb (key chip =? key c)%Z) (chips s)).
        lia.
      + pose proof (settled_mounted p s raw Hr Hin) as Hd.
        destruct Hr as [H1 _ _]. rewrite H1 in Hd.
        unfold limitReached in Hd. rewrite Hl in Hd.
        apply andb_false_iff in Hd. destruct Hd as [Hd|Hd].
        * apply negb_false_iff, Z.eqb_eq in Hd. contradiction.
        * apply Z.leb_gt in Hd. rewrite length_app. simpl. lia. }
  split; [exact Hcap|].
  intros Hseeds Hpos. rewrite Hseeds in Hcap. simpl in Hcap. lia.
Qed.

Lemma chip_count_capped_by_limit_witness :
  (Z.of_nat (List.length (chips (fst (run sampleProps
      (commitEntry "a@x.com" 6 ++ commitEntry "b@x.com" 7 ++ commitEntry "c@x.com" 8)
      (mount sampleProps 5))))) <= 2)%Z.
Proof.
  apply (chip_count_capped_by_limit sampleProps 2); try reflexivity.
  - discriminate.
  - apply reachable_run, reachable_mount.
Defined.

(** ** Which chips are flagged invalid *)

Lemma In_mapi_from_valid (now : Z) (emails : list string) (c : EmailChip) :
  forall k, In c (mapi_from (fun e i => mkEmailChip (now - i) e true) k emails) ->
            valid c = true.
Proof.
  induction emails as [|e emails IH]; intros k; simpl; [intros []|].
  intros [<-|H]; [reflexivity | now apply IH with (k + 1)%Z].
Qed.

(** X3.  A chip is flagged invalid only if the validator rejects its email:
    seeds are valid without being looked at, and a committed chip gets the
    validator's verdict on the email it stores.  Without a validator no chip
    is ever invalid. *)
Theorem invalid_chip_is_rejected_by_validator
    (p : EmailInputProps) (s : State) (c : EmailChip)
    (Hreach : reachable p s) (Hin : In c (chips s)) (Hbad : valid c = false) :
  exists validate, validateEmail p = Some validate /\ validate (email c) = false.
Proof.
  assert (Hinv : Forall (fun c => valid c = false -> validity p (email c) = false)
                        (chips s)).
  { clear c Hin Hbad. induction Hreach as [now|s ev _ IH].
    - rewrite chips_mount. apply Forall_forall. intros c Hc Hv.
      unfold initialChips in Hc. destruct (initialEmails p); [|destruct Hc].
      apply In_mapi_from_valid in Hc. congruence.
    - destruct (step_handled p ev s) as (s' & Hh & Hc & _). rewrite Hc.
      destruct Hh as [s' Hsame _|c _ _ _ _|c _ _|raw now _ _ _ _];
        cbn [chips setChips setRequiredValidation].
      + now rewrite Hsame.
      + exact IH.
      + apply Forall_forall. intros x Hx. apply filter_In in Hx.
        rewrite Forall_forall in IH. now apply IH.
      + apply Forall_app. split; [exact IH|].
        constructor; [|constructor]. simpl. auto. }
  rewrite Forall_forall in Hinv. specialize (Hinv c Hin Hbad).
  unfold validity in Hinv. destruct (validateEmail p) as [validate|];
    [now exists validate | discriminate Hinv].
Qed.

Lemma invalid_chip_is_rejected_by_validator_witness :
  exists validate,
    validateEmail sampleProps = Some validate /\ validate "bad" = false.
Proof.
  apply (invalid_chip_is_rejected_by_validator sampleProps
           (fst (run sampleProps (commitEntry "bad" 6) (mount sampleProps 5)))
           (mkEmailChip 6 "bad" false)).
  - apply reachable_run, reachable_mount.
  - now left.
  - reflexivity.
Defined.

(** ** Keys under a moving clock *)

Lemma keys_mapi_from (now : Z) (emails : list string) :
  forall k,
    NoDup (map key (mapi_from (fun e i => mkEmailChip (now - i) e true) k emails)) /\
    Forall (fun c => (key c <= now - k)%Z)
           (mapi_from (fun e i => mkEmailChip (now - i) e true) k emails).
Proof.
  induction emails as [|e emails IH]; intros k; simpl.
  - split; constructor.
  - destruct (IH (k + 1)%Z) as [Hnd Hle]. split.
    + constructor; [|exact Hnd].
      intros Hin. apply in_map_iff in Hin. destruct Hin as (c & Hk & Hc).
      rewrite Forall_forall in Hle. specialize (Hle c Hc). lia.
    + constructor; [simpl; lia|].
      eapply Forall_impl; [|exact Hle]. intros c Hc. simpl in Hc. lia.
Qed.

(** The keys are pairwise different and none is later than the clock. *)
Lemma ticking_keys (p : EmailInputProps) (t : Z) (s : State) :
  ticking p t s ->
  NoDup (map key (chips s)) /\ Forall (fun c => (key c <= t)%Z) (chips s).
Proof.
  assert (Hstep : forall t s ev t',
            NoDup (map key (chips s)) /\ Forall (fun c => (key c <= t)%Z) (chips s) ->
            (t <= t')%Z ->
            (forall now, eventClock ev = Some now -> (t < now)%Z /\ t' = now) ->
            NoDup (map key (chips (fst (step p ev s)))) /\
            Forall (fun c => (key c <= t')%Z) (chips (fst (step p ev s)))).
  { clear t s. intros t s ev t' [Hnd Hle] Htt Hclock.
    assert (Hle' : Forall (fun c => (key c <= t')%Z) (chips s)).
    { eapply Forall_impl; [|exact Hle]. intros c Hc. simpl in Hc. lia. }
    destruct (step_handled p ev s) as (s' & Hh & Hc & _). rewrite Hc.
    destruct Hh as [s' Hsame _|c _ _ _ _|c _ _|raw now Hev _ _ _];
      cbn [chips setChips setRequiredValidation].
    - now rewrite Hsame.
    - now split.
    - split; [now apply NoDup_map_filter|].
      apply Forall_forall. intros x Hx. apply filter_In in Hx.
      rewrite Forall_forall in Hle'. now apply Hle'.
    - destruct (Hclock now Hev) as [Hlt ->]. split.
      + rewrite map_app. simpl. apply NoDup_app; [exact Hnd | | ].
        * constructor; [intros [] | constructor].
        * intros x Hx [Hx'|[]]. simpl in Hx'. subst x.
          apply in_map_iff in Hx. destruct Hx as (c & Hk & Hc').
          rewrite Forall_forall in Hle. specialize (Hle c Hc'). lia.
      + apply Forall_app. split; [exact Hle'|].
        constructor; [simpl; lia | constructor]. }
  induction 1 as [now|t s ev _ IH Hq|t s ev now _ IH Hc Hlt].
  - rewrite chips_mount. unfold initialChips.
    destruct (initialEmails p) as [emails|]; [|split; constructor].
    destruct (keys_mapi_from now emails 0) as [Hnd Hle]. split; [exact Hnd|].
    eapply Forall_impl; [|exact Hle]. intros c Hc. simpl in Hc. lia.
  - apply (Hstep t s ev t IH); [lia|]. intros now Hnow. congruence.
  - apply (Hstep t s ev now IH); [lia|]. intros now' Hnow.
    rewrite Hc in Hnow. injection Hnow as <-. now split.
Qed.

(** X4.  When the clock moves on between any two readings, no two chips have
    the same key, so the spans that [EmailChipsList] renders have pairwise
    different React keys. *)
Theorem rendered_keys_distinct
    (p : EmailInputProps) (t : Z) (s : State) (Htick : ticking p t s) :
  NoDup (map key (chips s)) /\
  NoDup (map span_key (EmailChipsList (chips s))).
Proof.
  destruct (ticking_keys p t s Htick) as [Hnd _]. split; [exact Hnd|].
  unfold EmailChipsList. rewrite map_map. exact Hnd.
Qed.

Lemma rendered_keys_distinct_witness :
  NoDup (map span_key (EmailChipsList
    (chips (fst (step sampleProps (KeyDown "Enter" 6)
       (fst (step sampleProps (Change "a@x.com") (mount sampleProps 5)))))))).
Proof.
  refine (proj2 (rendered_keys_distinct sampleProps 6 _ _)).
  apply ticking_clock with (t := 5%Z); [|reflexivity|reflexivity].
  apply ticking_quiet; [apply ticking_mount | reflexivity].
Defined.

(** ** Deleting with pairwise different keys *)

Lemma filter_all {A : Type} (f : A -> bool) (l : list A) :
  (forall x, In x l -> f x = true) -> filter f l = l.
Proof.
  induction l as [|a l IH]; intros H; simpl; [reflexivity|].
  rewrite (H a (or_introl eq_refl)), IH; [reflexivity|].
  intros x Hx. apply H. now right.
Qed.

Lemma key_differs (cs : list EmailChip) (a c : EmailChip) :
  ~ In (key a) (map key cs) -> In c cs -> negb (key c =? key a)%Z = true.
Proof.
  intros Hnot Hc. apply negb_true_iff, Z.eqb_neq. intros E.
  apply Hnot. rewrite <- E. now apply in_map.
Qed.

Lemma filter_key_drops_position (cs : list EmailChip) :
  forall i c,
    NoDup (map key cs) -> nth_error cs i = Some c ->
    filter (fun chip => negb (key chip =? key c)%Z) cs = firstn i cs ++ skipn (S i) cs.
Proof.
  induction cs as [|a cs IH]; intros [|i] c Hnd Hi; simpl in *; try discriminate.
  - injection Hi as <-. rewrite Z.eqb_refl. simpl.
    inversion Hnd as [|? ? Hnot _]; subst.
    apply filter_all. intros x Hx. now apply key_differs with cs.
  - inversion Hnd as [|? ? Hnot Hnd']; subst.
    assert (Hc : In c cs) by now apply nth_error_In with i.
    replace (key a =? key c)%Z with false.
    + simpl. f_equal. now apply IH.
    + symmetry. apply Z.eqb_neq. intros E. apply Hnot. rewrite E. now apply in_map.
Qed.

(** X5.  When the keys are pairwise different, a deletion that is not
    refused removes the chip at the position of the activated button and
    nothing else: the chips before it and after it stay, in their order, and
    the listener is given that list. *)
Theorem deletion_removes_exactly_the_target
    (p : EmailInputProps) (s : State) (i : nat) (c : EmailChip)
    (Hkeys : NoDup (map key (chips s)))
    (Hi : nth_error (chips s) i = Some c)
    (Hperm : required p && valid c && isOnlyOneValidChip s = false) :
  chips (fst (step p (ChipClick i) s)) = firstn i (chips s) ++ skipn (S i) (chips s) /\
  S (List.length (chips (fst (step p (ChipClick i) s)))) = List.length (chips s) /\
  snd (step p (ChipClick i) s) =
  callOnChipChange p (emailChipsToEmailData (firstn i (chips s) ++ skipn (S i) (chips s))).
Proof.
  assert (Hchips : chips (fst (step p (ChipClick i) s)) =
                   firstn i (chips s) ++ skipn (S i) (chips s)).
  { rewrite chips_step. unfold dispatch. rewrite Hi.
    rewrite (deleteChip_permitted p s c Hperm). cbn [fst chips setChips].
    now apply filter_key_drops_position. }
  split; [exact Hchips|]. split.
  - rewrite Hchips, length_app, length_firstn, length_skipn.
    assert (i < List.length (chips s))%nat.
    { apply nth_error_Some. now rewrite Hi. }
    lia.
  - rewrite step_snd. unfold dispatch. rewrite Hi.
    rewrite (deleteChip_permitted p s c Hperm). cbn [snd].
    now rewrite (filter_key_drops_position (chips s) i c Hkeys Hi).
Qed.

Lemma deletion_removes_exactly_the_target_witness :
  chips (fst (step sampleProps (ChipClick 0)
     (setChips [mkEmailChip 10 "a@x.com" true; mkEmailChip 11 "b@x.com" true]
        oneValidChip))) = [mkEmailChip 11 "b@x.com" true].
Proof.
  refine (proj1 (deletion_removes_exactly_the_target sampleProps
     (setChips [mkEmailChip 10 "a@x.com" true; mkEmailChip 11 "b@x.com" true]
        oneValidChip) 0 (mkEmailChip 10 "a@x.com" true) _ eq_refl eq_refl)).
  simpl. repeat constructor; simpl; intuition discriminate.
Defined.

(** ** The required rule with pairwise different keys *)

Lemma valid_chip_survives_deletion
    (p : EmailInputProps) (s : State) (c : EmailChip) :
  required p = true -> NoDup (map key (chips s)) ->
  required p && valid c && isOnlyOneValidChip s = false ->
  In c (chips s) ->
  (exists v, In v (chips s) /\ valid v = true) ->
  exists v, In v (filter (fun chip => negb (key chip =? key c)%Z) (chips s)) /\
            valid v = true.
Proof.
  intros Hreq Hnd Hperm Hc (v & Hv & Hvalid).
  rewrite Hreq in Hperm. simpl in Hperm.
  assert (Hother : forall w, In w (chips s) -> valid w = true -> key w <> key c ->
            exists v0, In v0 (filter (fun chip => negb (key chip =? key c)%Z) (chips s))
                       /\ valid v0 = true).
  { intros w Hw Hwv Hk. exists w. split; [|exact Hwv].
    apply filter_In. split; [exact Hw|]. now apply negb_true_iff, Z.eqb_neq. }
  destruct (valid c) eqn:Vc.
  - (* the target is valid, so there are at least two valid chips *)
    simpl in Hperm. unfold isOnlyOneValidChip in Hperm. apply Nat.leb_gt in Hperm.
    pose proof (NoDup_map_filter key valid (chips s) Hnd) as Hndv.
    destruct (filter valid (chips s)) as [|w1 [|w2 rest]] eqn:F; simpl in Hperm; try lia.
    assert (H1 : In w1 (filter valid (chips s))) by (rewrite F; now left).
    assert (H2 : In w2 (filter valid (chips s))) by (rewrite F; right; now left).
    apply filter_In in H1. apply filter_In in H2.
    simpl in Hndv. inversion Hndv as [|? ? Hnot _]; subst.
    destruct (Z.eq_dec (key w1) (key c)) as [E|E].
    + apply (Hother w2); try tauto. intros E2. apply Hnot. left. congruence.
    + apply (Hother w1); tauto.
  - (* the target is invalid: the valid chip is another chip *)
    apply (Hother v Hv Hvalid). intros E.
    assert (v = c); [|congruence].
    clear - Hnd Hv Hc E. induction (chips s) as [|a l IH]; [destruct Hv|].
    simpl in Hnd. inversion Hnd as [|? ? Hnot Hnd']; subst.
    destruct Hv as [<-|Hv], Hc as [<-|Hc]; auto.
    + exfalso. apply Hnot. rewrite E. now apply in_map.
    + exfalso. apply Hnot. rewrite <- E. now apply in_map.
Qed.



Lemma requiredValidation_mount (p : EmailInputProps) (now : Z) :
  requiredValidation (mount p now) = false.
Proof.
  unfold mount. rewrite requiredValidation_render.
  unfold limitEffect, setLimitValidation, setDisableInput. cbn [requiredValidation].
  now rewrite requiredValidation_render.
Qed.

Lemma filter_valid_nil_no_valid (cs : list EmailChip) :
  filter valid cs = [] -> forall v, In v cs -> valid v = true -> False.
Proof.
  intros F v Hv Hvalid.
  assert (H : In v (filter valid cs)) by (apply filter_In; now split).
  rewrite F in H. destruct H.
Qed.

(** X7.  With [required] active and a clock that moves on: whenever chips
    are shown and none of them is valid, the required flag is set and the
    required message is rendered. *)
Theorem only_invalid_chips_show_required_message
    (p : EmailInputProps) (d : DisplayProps) (t : Z) (s : State)
    (Hreq : required p = true)
    (Htick : ticking p t s)
    (Hshown : chips s <> [])
    (Hnone : filter valid (chips s) = []) :
  requiredValidation s = true /\
  view_requiredMessage (view p d s) = Some (requiredMessage d).
Proof.
  assert (Hflag : requiredValidation s = true).
  { revert Hshown Hnone.
    assert (Hstep : forall t s ev,
              ticking p t s ->
              (chips s <> [] -> filter valid (chips s) = [] ->
               requiredValidation s = true) ->
              chips (fst (step p ev s)) <> [] ->
              filter valid (chips (fst (step p ev s))) = [] ->
              requiredValidation (fst (step p ev s)) = true).
    { clear t s Htick. intros t s ev Htick IH.
      destruct (ticking_keys p t s Htick) as [Hnd _].
      destruct (step_handled p ev s) as (s' & Hh & Hc & Hr). rewrite Hc, Hr.
      destruct Hh as [s' Hsame Hsame'|c _ _ _ _|c Hin Hperm|raw now _ _ _ _];
        cbn [chips setChips setRequiredValidation requiredValidation].
      - rewrite Hsame, Hsame'. exact IH.
      - reflexivity.
      - intros Hne Hnone.
        destruct (filter valid (chips s)) as [|v rest] eqn:F.
        + apply IH; [|reflexivity]. intros E. rewrite E in Hne. now apply Hne.
        + exfalso.
          assert (Hv : In v (filter valid (chips s))) by (rewrite F; now left).
          apply filter_In in Hv.
          destruct (valid_chip_survives_deletion p s c Hreq Hnd Hperm Hin)
            as (w & Hw & Hwv); [now exists v|].
          now apply (filter_valid_nil_no_valid _ Hnone w).
      - intros _ Hnone. rewrite filter_app in Hnone.
        apply app_eq_nil in Hnone. destruct Hnone as [H1 H2]. simpl in H2.
        unfold requiredAfterAdd. rewrite Hreq, H1.
        destruct (validity p (normalize raw)); [discriminate H2 | reflexivity]. }
    induction Htick as [now|t s ev Htick IH _|t s ev now Htick IH _ _].
    - intros Hne Hnone. exfalso. rewrite chips_mount in Hne, Hnone.
      destruct (initialChips p now) as [|c cs] eqn:E; [now apply Hne|].
      apply (filter_valid_nil_no_valid _ Hnone c); [now left|].
      assert (Hc : In c (initialChips p now)) by (rewrite E; now left).
      unfold initialChips in Hc. destruct (initialEmails p); [|destruct Hc].
      now apply In_mapi_from_valid in Hc.
    - now apply Hstep with t.
    - now apply Hstep with t. }
  split; [exact Hflag|]. unfold view. cbn [view_requiredMessage].
  now rewrite Hreq, Hflag.
Qed.

Lemma only_invalid_chips_show_required_message_witness :
  view_requiredMessage
    (view sampleProps sampleDisplay
       (fst (step sampleProps (KeyDown "Enter" 6)
          (fst (step sampleProps (Change "bad") (mount sampleProps 5)))))) =
  Some (Some "Email is required").
Proof.
  refine (proj2 (only_invalid_chips_show_required_message sampleProps sampleDisplay 6 _
                   eq_refl _ _ _)).
  - apply ticking_clock with (t := 5%Z); [|reflexivity|reflexivity].
    apply ticking_quiet; [apply ticking_mount | reflexivity].
  - discriminate.
  - reflexivity.
Defined.

(** X8.  The required flag, once set, is only cleared by an event that adds
    a chip, and then only if the new chip is valid or [required] is not
    active: no deletion, refused or not, and no ignored commit clears it. *)
Theorem required_flag_cleared_only_by_added_chip
    (p : EmailInputProps) (s : State) (ev : Event)
    (Hset : requiredValidation s = true)
    (Hcleared : requiredValidation (fst (step p ev s)) = false) :
  exists raw now,
    eventClock ev = Some now /\
    chips (fst (step p ev s)) = chips s ++ [chipOf p raw now] /\
    (valid (chipOf p raw now) = true \/ required p = false).
Proof.
  destruct (step_handled p ev s) as (s' & Hh & Hc & Hr). rewrite Hr in Hcleared.
  rewrite Hc.
  destruct Hh as [s' _ Hsame|c _ _ _ _|c _ _|raw now Hev _ _ _];
    cbn [chips setChips setRequiredValidation requiredValidation] in *;
    try congruence.
  exists raw, now. split; [exact Hev|]. split; [reflexivity|].
  unfold requiredAfterAdd in Hcleared. unfold chipOf. cbn [valid].
  destruct (required p); [|now right].
  destruct (validity p (normalize raw)); [now left|].
  simpl in Hcleared. rewrite Hset in Hcleared.
  destruct (_ =? 0)%nat; discriminate Hcleared.
Qed.

Lemma required_flag_cleared_only_by_added_chip_witness :
  exists raw now,
    eventClock (KeyDown "Enter" 11) = Some now /\
    chips (fst (step sampleProps (KeyDown "Enter" 11)
                  (setRequiredValidation true secondTyped))) =
    chips (setRequiredValidation true secondTyped) ++ [chipOf sampleProps raw now] /\
    (valid (chipOf sampleProps raw now) = true \/ required sampleProps = false).
Proof.
  apply (required_flag_cleared_only_by_added_chip sampleProps
           (setRequiredValidation true secondTyped) (KeyDown "Enter" 11));
    reflexivity.
Defined.

(** X9.  Without [required] the required flag is never set, whatever is
    committed or deleted. *)
Theorem required_flag_needs_required
    (p : EmailInputProps) (s : State)
    (Hoff : required p = false) (Hreach : reachable p s) :
  requiredValidation s = false.
Proof.
  induction Hreach as [now|s ev _ IH]; [apply requiredValidation_mount|].
  destruct (step_handled p ev s) as (s' & Hh & _ & Hr). rewrite Hr.
  destruct Hh as [s' _ Hsame|c _ Hreq _ _|c _ _|raw now _ _ _ _];
    cbn [setChips setRequiredValidation requiredValidation]; try congruence.
  unfold requiredAfterAdd. now rewrite Hoff.
Qed.

Lemma required_flag_needs_required_witness :
  requiredValidation
    (fst (run sampleOptional (commitEntry "bad" 6 ++ [ChipClick 0])
            (mount sampleOptional 5))) = false.
Proof.
  apply (required_flag_needs_required sampleOptional); [reflexivity|].
  apply reachable_run, reachable_mount.
Defined.

(** ** Sequences of commits and deletions *)

Lemma roomFor_not_reached (p : EmailInputProps) (n k : nat) :
  roomFor p n -> (k < n)%nat -> limitReached p k = false.
Proof.
  unfold roomFor, limitReached. destruct (limit p) as [l|]; [|reflexivity].
  intros [->|Hle] Hk; [reflexivity|].
  apply andb_false_iff. right. apply Z.leb_gt. lia.
Qed.

(** X10.  Commits of texts whose normalized forms are not empty, pairwise
    different and not yet among the chips, made while there is room under
    the limit, add one chip each, after the chips there were and in the
    order of the commits. *)
Theorem distinct_commits_append_in_order
    (p : EmailInputProps) (s : State) (entries : list (string * Z))
    (Hreach : reachable p s)
    (Hroom : roomFor p (List.length (chips s) + List.length entries))
    (Hdistinct : NoDup (map (fun e => normalize (fst e)) entries))
    (Hnew : forall e, In e entries ->
              normalize (fst e) <> "" /\
              ~ In (normalize (fst e)) (map email (chips s))) :
  chips (fst (run p (commitEntries entries) s)) =
  chips s ++ map (fun e => chipOf p (fst e) (snd e)) entries /\
  List.length (chips (fst (run p (commitEntries entries) s))) =
  (List.length (chips s) + List.length entries)%nat.
Proof.
  assert (H : chips (fst (run p (commitEntries entries) s)) =
              chips s ++ map (fun e => chipOf p (fst e) (snd e)) entries).
  { apply commitEntries_distinct; auto.
    - now apply reachable_settled.
    - intros k Hk. now apply roomFor_not_reached with (n := (List.length (chips s) + List.length entries)%nat). }
  split; [exact H|]. now rewrite H, length_app, length_map.
Qed.

Lemma distinct_commits_append_in_order_witness :
  chips (fst (run sampleUnlimited
     (commitEntries [(" B@x.com", 11%Z); ("bad", 12%Z); ("C@X.COM ", 13%Z)])
     oneValidChip)) =
  [mkEmailChip 10 "a@x.com" true; mkEmailChip 11 "b@x.com" true;
   mkEmailChip 12 "bad" false; mkEmailChip 13 "c@x.com" true].
Proof.
  refine (proj1 (distinct_commits_append_in_order sampleUnlimited oneValidChip
     [(" B@x.com", 11%Z); ("bad", 12%Z); ("C@X.COM ", 13%Z)] _ _ _ _)).
  - change oneValidChip with
      (fst (run sampleUnlimited (commitEntry "a@x.com" 10) (mount sampleUnlimited 5))).
    apply reachable_run, reachable_mount.
  - exact I.
  - repeat constructor; simpl; intuition discriminate.
  - intros e [<-|[<-|[<-|[]]]]; (split; [discriminate|]);
      simpl; intros [H|[]]; discriminate H.
Defined.

Lemma filter_valid_snoc_two (cs : list EmailChip) (c : EmailChip) :
  valid c = true -> (exists v, In v cs /\ valid v = true) ->
  (List.length (filter valid (cs ++ [c])) <=? 1)%nat = false.
Proof.
  intros Hc (v & Hv & Hvalid). rewrite filter_app, length_app. simpl. rewrite Hc.
  assert (Hin : In v (filter valid cs)) by (apply filter_In; now split).
  destruct (filter valid cs); [destruct Hin|]. simpl. apply Nat.leb_gt. lia.
Qed.

Lemma chips_commitEntry_step (p : EmailInputProps) (s : State) (raw : string)
    (now : Z) (ev : Event) :
  fst (run p (commitEntry raw now ++ [ev]) s) =
  fst (step p ev (fst (run p (commitEntry raw now) s))).
Proof.
  rewrite run_app. simpl. now destruct (step p ev _).
Qed.

(** X11.  Adding a chip and deleting it again gives back the chips there
    were: after a commit that adds a chip with a key no other chip has,
    activating the delete button of the new, last chip leaves the old
    list, provided the deletion is not refused, that is, unless [required]
    is active and the new chip would be the only valid one. *)
Theorem commit_then_delete_restores_chips
    (p : EmailInputProps) (s : State) (raw v : string) (now : Z)
    (Hreach : reachable p s)
    (Hin : inputRef s = Some v)
    (Hne : normalize raw <> "")
    (Hnew : ~ In (normalize raw) (map email (chips s)))
    (Hkey : ~ In now (map key (chips s)))
    (Hperm : required p = true -> validity p (normalize raw) = true ->
             exists c, In c (chips s) /\ valid c = true) :
  chips (fst (run p (commitEntry raw now ++ [ChipClick (List.length (chips s))]) s)) =
  chips s.
Proof.
  apply reachable_settled in Hreach.
  pose proof (commitEntry_appends p s raw v now Hreach Hin Hne Hnew) as Happ.
  rewrite chips_commitEntry_step, chips_step.
  set (s1 := fst (run p (commitEntry raw now) s)) in *.
  set (c := mkEmailChip now (normalize raw) (validity p (normalize raw))) in *.
  unfold dispatch.
  replace (nth_error (chips s1) (List.length (chips s))) with (Some c).
  2:{ rewrite Happ, nth_error_app2 by lia. now rewrite Nat.sub_diag. }
  rewrite deleteChip_permitted.
  - cbn [fst chips setChips]. rewrite Happ, filter_app. simpl.
    rewrite Z.eqb_refl. simpl. rewrite app_nil_r.
    apply filter_all. intros x Hx. apply negb_true_iff, Z.eqb_neq.
    intros E. apply Hkey. rewrite <- E. now apply in_map.
  - destruct (required p) eqn:R; [|reflexivity].
    destruct (valid c) eqn:V; [|reflexivity]. simpl.
    unfold isOnlyOneValidChip. rewrite Happ.
    apply filter_valid_snoc_two; [exact V | now apply Hperm].
Qed.

Lemma commit_then_delete_restores_chips_witness :
  chips (fst (run sampleProps (commitEntry "b@x.com" 11 ++ [ChipClick 1]) oneValidChip)) =
  chips oneValidChip.
Proof.
  apply (commit_then_delete_restores_chips sampleProps oneValidChip "b@x.com" "" 11).
  - change oneValidChip with
      (fst (run sampleProps (commitEntry "a@x.com" 10) (mount sampleProps 5))).
    apply reachable_run, reachable_mount.
  - reflexivity.
  - discriminate.
  - simpl. intros [H|[]]. discriminate H.
  - simpl. intros [H|[]]. discriminate H.
  - intros _ _. exists (mkEmailChip 10 "a@x.com" true). split; [now left|reflexivity].
Defined.

(** X12.  With [required] active and one valid chip, that chip cannot be
    deleted; once a second, valid chip has been committed (at a time that is
    not the first chip's key) the same delete button removes it: the first
    chip is gone, the new chip stays, and the required flag is clear. *)
Theorem second_valid_chip_unlocks_deletion
    (p : EmailInputProps) (s : State) (i : nat) (c : EmailChip)
    (raw v : string) (now : Z)
    (Hreq : required p = true)
    (Hreach : reachable p s)
    (Hin : inputRef s = Some v)
    (Honly : filter valid (chips s) = [c])
    (Hi : nth_error (chips s) i = Some c)
    (Hne : normalize raw <> "")
    (Hnew : ~ In (normalize raw) (map email (chips s)))
    (Hvalid : validity p (normalize raw) = true)
    (Hkey : now <> key c) :
  chips (fst (step p (ChipClick i) s)) = chips s /\
  ~ In c (chips (fst (run p (commitEntry raw now ++ [ChipClick i]) s))) /\
  In (chipOf p raw now) (chips (fst (run p (commitEntry raw now ++ [ChipClick i]) s))) /\
  requiredValidation (fst (run p (commitEntry raw now ++ [ChipClick i]) s)) = false.
Proof.
  assert (Hc : In c (filter valid (chips s))) by (rewrite Honly; now left).
  apply filter_In in Hc. destruct Hc as [Hc Hcv].
  split.
  { rewrite chips_step. unfold dispatch. rewrite Hi, deleteChip_refused; auto.
    rewrite Honly. simpl. lia. }
  apply reachable_settled in Hreach.
  pose proof (commitEntry_appends p s raw v now Hreach Hin Hne Hnew) as Happ.
  assert (Hflag : requiredValidation (fst (run p (commitEntry raw now) s)) = false).
  { rewrite (run_commitEntry p s raw now Hreach), Hin, requiredValidation_settle.
    rewrite (updateChips_append p now (setInputRef (Some raw) s) raw eq_refl Hne Hnew).
    cbn [fst requiredValidation]. unfold requiredAfterAdd.
    now rewrite Hvalid, andb_false_r. }
  rewrite chips_commitEntry_step, chips_step, step_fst, requiredValidation_settle.
  set (s1 := fst (run p (commitEntry raw now) s)) in *.
  unfold dispatch.
  replace (nth_error (chips s1) i) with (Some c).
  2:{ rewrite Happ, nth_error_app1; [now rewrite Hi|].
      apply nth_error_Some. now rewrite Hi. }
  rewrite deleteChip_permitted.
  - cbn [fst chips setChips requiredValidation]. rewrite Happ.
    split; [|split; [|exact Hflag]].
    + intros H. apply filter_In in H. destruct H as [_ H].
      now rewrite Z.eqb_refl in H.
    + apply filter_In. split; [apply in_app_iff; right; now left|].
      unfold chipOf. cbn [key]. now apply negb_true_iff, Z.eqb_neq.
  - rewrite Hreq, Hcv. simpl. unfold isOnlyOneValidChip. rewrite Happ.
    apply filter_valid_snoc_two; [exact Hvalid | now exists c].
Qed.

Lemma second_valid_chip_unlocks_deletion_witness :
  chips (fst (step sampleProps (ChipClick 0) oneValidChip)) = chips oneValidChip /\
  ~ In (mkEmailChip 10 "a@x.com" true)
       (chips (fst (run sampleProps (commitEntry "b@x.com" 11 ++ [ChipClick 0])
                      oneValidChip))) /\
  In (chipOf sampleProps "b@x.com" 11)
     (chips (fst (run sampleProps (commitEntry "b@x.com" 11 ++ [ChipClick 0])
                    oneValidChip))) /\
  requiredValidation (fst (run sampleProps (commitEntry "b@x.com" 11 ++ [ChipClick 0])
                             oneValidChip)) = false.
Proof.
  apply (second_valid_chip_unlocks_deletion sampleProps oneValidChip 0
           (mkEmailChip 10 "a@x.com" true) "b@x.com" "" 11); try reflexivity.
  - change oneValidChip with
      (fst (run sampleProps (commitEntry "a@x.com" 10) (mount sampleProps 5))).
    apply reachable_run, reachable_mount.
  - discriminate.
  - simpl. intros [H|[]]. discriminate H.
  - discriminate.
Defined.

(** ** Typing what a chip shows *)

Lemma reachable_emails_normalized (p : EmailInputProps) (s : State) :
  Forall (fun e => normalize e = e) (seeds p) -> reachable p s ->
  Forall (fun c => normalize (email c) = email c) (chips s).
Proof.
  intros Hseeds. induction 1 as [now|s ev _ IH].
  - rewrite chips_mount. apply Forall_forall. intros c Hc.
    rewrite Forall_forall in Hseeds. apply Hseeds.
    rewrite <- (map_email_initialChips p now). now apply in_map.
  - destruct (step_handled p ev s) as (s' & Hh & Hc & _). rewrite Hc.
    destruct Hh as [s' Hsame _|c _ _ _ _|c _ _|raw now _ _ _ _];
      cbn [chips setChips setRequiredValidation].
    + now rewrite Hsame.
    + exact IH.
    + apply Forall_forall. intros x Hx. apply filter_In in Hx.
      rewrite Forall_forall in IH. now apply IH.
    + apply Forall_app. split; [exact IH|].
      constructor; [|constructor]. simpl. apply normalize_idem.
Qed.

(** X13.  When the seed emails are already normalized (in particular when
    there are none), committing the very text a chip shows never adds a
    chip: what is stored is its own normalized form, so it is found as a
    duplicate. *)
Theorem committing_a_shown_email_adds_nothing
    (p : EmailInputProps) (s : State) (c : EmailChip) (now : Z)
    (Hseeds : Forall (fun e => normalize e = e) (seeds p))
    (Hreach : reachable p s)
    (Hc : In c (chips s)) :
  normalize (email c) = email c /\
  chips (fst (run p (commitEntry (email c) now) s)) = chips s.
Proof.
  pose proof (reachable_emails_normalized p s Hseeds Hreach) as Hnorm.
  rewrite Forall_forall in Hnorm. specialize (Hnorm c Hc).
  split; [exact Hnorm|].
  apply commitEntry_ignored; [now apply reachable_settled|].
  right; right. rewrite Hnorm. now apply in_map.
Qed.

Lemma committing_a_shown_email_adds_nothing_witness :
  chips (fst (run sampleUnlimited (commitEntry "a@x.com" 11)
     (fst (run sampleUnlimited (commitEntry "  A@X.com " 10) (mount sampleUnlimited 5))))) =
  [mkEmailChip 10 "a@x.com" true].
Proof.
  refine (proj2 (committing_a_shown_email_adds_nothing sampleUnlimited
     (fst (run sampleUnlimited (commitEntry "  A@X.com " 10) (mount sampleUnlimited 5)))
     (mkEmailChip 10 "a@x.com" true) 11 _ _ _)).
  - constructor.
  - apply reachable_run, reachable_mount.
  - now left.
Defined.

(** ** What is on screen *)

(** X14.  In every reachable state the component shows either the input or
    the limit message, never both and never neither: the input is left out
    exactly when a non-zero limit is at most the number of chips, which is
    exactly when the limit message, with the text of [limitMessage], is
    rendered; and the input is rendered exactly when [inputRef] holds it. *)
Theorem input_or_limit_message
    (p : EmailInputProps) (d : DisplayProps) (s : State)
    (Hreach : reachable p s) :
  (view_input (view p d s) = None <->
   view_limitMessage (view p d s) = Some (limitMessage d)) /\
  (view_input (view p d s) = Some (mkInputElement (inputId d) (placeholder d)) <->
   view_limitMessage (view p d s) = None) /\
  (view_input (view p d s) = None <->
   exists l, limit p = Some l /\ l <> 0%Z /\ (l <= Z.of_nat (List.length (chips s)))%Z) /\
  (view_input (view p d s) = None <-> inputRef s = None).
Proof.
  apply reachable_settled in Hreach. destruct Hreach as [H1 H2 H3].
  rewrite <- limitReached_spec. unfold view.
  cbn [view_input view_limitMessage]. rewrite H2, H3, H1.
  unfold limitReached. destruct (limit p) as [l|]; simpl.
  - destruct (negb (l =? 0)%Z); simpl.
    + destruct (l <=? _)%Z; simpl; repeat split; congruence.
    + repeat split; congruence.
  - repeat split; congruence.
Qed.

Lemma input_or_limit_message_witness :
  view_input (view seededOverLimit sampleDisplay (mount seededOverLimit 100)) = None /\
  view_limitMessage (view seededOverLimit sampleDisplay (mount seededOverLimit 100)) =
  Some (Some "You've reached the email limit").
Proof.
  pose proof (input_or_limit_message seededOverLimit sampleDisplay
                (mount seededOverLimit 100) (reachable_mount seededOverLimit 100)) as H.
  split; [reflexivity|]. apply H. reflexivity.
Defined.

(** X15.  [EmailChipsList] renders the chips one span each, in the order
    of the list: the buttons report the chips themselves, the texts are
    their emails, the React keys their keys.  The class of a span tells
    valid from invalid: two spans have the same class exactly when their
    chips agree on [valid]. *)
Theorem spans_tell_valid_from_invalid (cs : list EmailChip) :
  map span_chip (EmailChipsList cs) = cs /\
  map span_text (EmailChipsList cs) = map email cs /\
  map span_key (EmailChipsList cs) = map key cs /\
  (forall a b, In a (EmailChipsList cs) -> In b (EmailChipsList cs) ->
     (span_className a = span_className b <->
      valid (span_chip a) = valid (span_chip b))).
Proof.
  unfold EmailChipsList. rewrite !map_map. cbn [span_chip span_text span_key].
  split; [apply map_id|]. split; [reflexivity|]. split; [reflexivity|].
  intros a b Ha Hb. apply in_map_iff in Ha. apply in_map_iff in Hb.
  destruct Ha as (ca & <- & _), Hb as (cb & <- & _). cbn [span_className span_chip].
  destruct (valid ca), (valid cb); split; intros H;
    try reflexivity; try discriminate H.
Qed.

Lemma spans_tell_valid_from_invalid_witness :
  map span_className
    (EmailChipsList [mkEmailChip 1 "a@x.com" true; mkEmailChip 2 "bad" false]) <>
  map span_className
    (EmailChipsList [mkEmailChip 2 "bad" false; mkEmailChip 1 "a@x.com" true]).
Proof.
  intros H. injection H as H _.
  pose proof (proj2 (proj2 (proj2 (spans_tell_valid_from_invalid
                [mkEmailChip 1 "a@x.com" true; mkEmailChip 2 "bad" false])))) as Hcls.
  specialize (Hcls _ _ (or_introl eq_refl) (or_intror (or_introl eq_refl))).
  apply Hcls in H. discriminate H.
Defined.

(** ** Seeds *)

(** X16.  Mounting makes the seed emails into chips as they are, in their
    order, and marks every one of them valid without asking the validator,
    so also those the validator would reject; no flag of the required rule
    is raised for them. *)
Theorem seeds_are_valid_unvalidated (p : EmailInputProps) (now : Z) :
  map email (chips (mount p now)) = seeds p /\
  Forall (fun c => valid c = true) (chips (mount p now)) /\
  requiredValidation (mount p now) = false /\
  (forall emails validate,
     initialEmails p = Some emails -> validateEmail p = Some validate ->
     forall e, In e emails -> validate e = false ->
     exists c, In c (chips (mount p now)) /\ email c = e /\ valid c = true).
Proof.
  assert (Hvalid : Forall (fun c => valid c = true) (chips (mount p now))).
  { rewrite chips_mount. apply Forall_forall. intros c Hc.
    unfold initialChips in Hc. destruct (initialEmails p); [|destruct Hc].
    now apply In_mapi_from_valid in Hc. }
  split; [rewrite chips_mount; apply map_email_initialChips|].
  split; [exact Hvalid|]. split; [apply requiredValidation_mount|].
  intros emails validate Hseeds _ e He _.
  assert (Hin : In e (map email (chips (mount p now)))).
  { rewrite chips_mount, map_email_initialChips. unfold seeds. now rewrite Hseeds. }
  apply in_map_iff in Hin. destruct Hin as (c & Hemail & Hc).
  exists c. repeat split; auto.
  rewrite Forall_forall in Hvalid. now apply Hvalid.
Qed.

Lemma seeds_are_valid_unvalidated_witness :
  exists c,
    In c (chips (mount (mkProps None (Some ["bad"]) (Some hasAtSign) true true) 100)) /\
    email c = "bad" /\ valid c = true.
Proof.
  apply (proj2 (proj2 (proj2 (seeds_are_valid_unvalidated
           (mkProps None (Some ["bad"]) (Some hasAtSign) true true) 100)))
           ["bad"] hasAtSign eq_refl eq_refl "bad"); [now left | reflexivity].
Defined.
